(** * ORB-SLAM3 ROS 2 wrapper: the interface class

    A shallow embedding of [orb_slam3_interface.cpp]
    (namespace [ORB_SLAM3_Wrapper], class [ORBSLAM3Interface]) and the
    properties of its reference-pose resolution, its tracking entry points,
    its pose-graph export and its map-to-odom bridge.

    Conventions of the embedding.
    - The members of [ORBSLAM3Interface] are the fields of [State]; every
      member function takes the state and returns the new one.
    - The SLAM engine, the image decoder and the type-conversion helper are
      collaborators whose code lives elsewhere.  What they answer during one
      call is an argument of that call ([EngineStep], [Geometry]).
    - An engine object behind a pointer ([KeyFrame *], [Map *]) is read as
      the value it holds when the call reads it.  A map keeps its address
      ([mapPtr]), which keys the reference-pose table, and a keyframe keeps
      the address of its map ([GetMap]).
    - Dereferencing a null pointer ends the run: functions that may do so
      return an [outcome].
    - A [double] is the rational number it denotes, so the comparisons of the
      code are comparisons in [Q].
    - Eigen's default constructor leaves the coefficients of an
      [Eigen::Affine3d] unset.  [affineDefault] stands for the transform a
      default construction leaves where a property does not depend on it;
      the resolution pass is also given with that transform as a parameter
      ([calculateReferencePosesU]), for the properties that do.
    - A stamp is converted to an [rclcpp::Time] and back as [rclcpp] does,
      with the exceptions and the narrowing to [int32] ([excn]).
    - Calls are atomic: the two mutexes of the class are not modelled. *)

From Stdlib Require Import ZArith NArith QArith Qround List Sorted Permutation Lia.
From stdpp Require Import base option list gmap strings.
Import ListNotations.

#[local] Open Scope N_scope.

(** ** Message and geometry records *)

(** [builtin_interfaces::msg::Time]. *)
Record Stamp := mkStamp { sec : Z; nanosec : Z }.

Record Vec3 (A : Type) := mkVec3 { vx : A; vy : A; vz : A }.
Record Quat (A : Type) := mkQuat { qw : A; qx : A; qy : A; qz : A }.
Arguments mkVec3 {A} _ _ _.
Arguments vx {A} _.
Arguments vy {A} _.
Arguments vz {A} _.
Arguments mkQuat {A} _ _ _ _.
Arguments qw {A} _.
Arguments qx {A} _.
Arguments qy {A} _.
Arguments qz {A} _.

(** [geometry_msgs::msg::Pose]. *)
Record PoseMsg (A : Type) := mkPoseMsg { position : Vec3 A; orientation : Quat A }.
Arguments mkPoseMsg {A} _ _.
Arguments position {A} _.
Arguments orientation {A} _.

(** Identity of an [ORB_SLAM3::Map] and of the [ORB_SLAM3::Atlas]: the
    pointer value. *)
Definition MapPtr := positive.
Definition AtlasPtr := positive.

(** ** The collaborators' types and conversions

    [WrapperTypeConversions], Eigen, Sophus, OpenCV and cv_bridge are used by
    the interface but defined elsewhere; the interface is verified for every
    implementation of them. *)
Class Geometry := {
  (** [double] coordinates. *)
  scalar : Type;
  zero : scalar;
  one : scalar;
  (** [Sophus::SE3f], a pose in a map's own frame. *)
  SE3 : Type;
  (** [Eigen::Affine3d]. *)
  Affine : Type;
  (** [a * b] on [Eigen::Affine3d]. *)
  compose : Affine -> Affine -> Affine;
  (** [a.inverse()]. *)
  inverse : Affine -> Affine;
  (** [Eigen::Affine3d(Eigen::Translation3d(x, y, z) * Eigen::Quaterniond(w, x, y, z))]. *)
  mkAffine : Vec3 scalar -> Quat scalar -> Affine;
  (** The value of a default-constructed [Eigen::Affine3d], which is what
      [operator[]] of [std::map] stores for a key it does not hold.  Eigen
      does not initialise it; the model takes it to be one fixed value,
      except in [calculateReferencePosesU], where it is a parameter. *)
  affineDefault : Affine;
  (** [typeConversions_->se3ToAffine]. *)
  se3ToAffine : SE3 -> Affine;
  (** [tf2::toMsg] on an affine transform. *)
  toMsg : Affine -> PoseMsg scalar;
  (** [typeConversions_->stampToSec], a [double]. *)
  stampToSec : Stamp -> Q;
  (** [typeConversions_->secToStamp]. *)
  secToStamp : Q -> Stamp;
  (** [cv::Point3f(x, y, z)] from three [double]s. *)
  Point3f : Type;
  cvPoint3f : scalar -> scalar -> scalar -> Point3f;
  (** [sensor_msgs::msg::Image] payload, [cv_bridge::CvImageConstPtr], and
      [cv_bridge::toCvShare], which throws ([None]) on a payload it cannot
      decode. *)
  ImageData : Type;
  CvImage : Type;
  toCvShare : ImageData -> option CvImage;
  (** [Eigen::Vector3f], [typeConversions_->vector3fORBToROS], the two
      instances of [typeConversions_->transformPointWithReference] that the
      interface uses (to [Eigen::Vector3f] and to
      [geometry_msgs::msg::Point]), [sensor_msgs::msg::PointCloud2] and
      [typeConversions_->MapPointsToPCL]. *)
  Vector3f : Type;
  vector3fORBToROS : Vector3f -> Vector3f;
  transformPointWithReference : Affine -> Vector3f -> Vector3f;
  transformPointWithReferenceMsg : Affine -> Vector3f -> Vec3 scalar;
  PointCloud2 : Type;
  MapPointsToPCL : list Vector3f -> PointCloud2
}.

(** ** An ordered map keyed by keyframe identifier

    [std::map<long unsigned int, V>]: the entries are kept in ascending key
    order, and iteration visits them in that order. *)
Module OMap.

Definition t (V : Type) := list (N * V).

Definition empty {V} : t V := [].

(** [m[k] = v]. *)
Fixpoint insert {V} (k : N) (v : V) (m : t V) : t V :=
  match m with
  | [] => [(k, v)]
  | (k0, v0) :: rest =>
      match N.compare k k0 with
      | Lt => (k, v) :: m
      | Eq => (k, v) :: rest
      | Gt => (k0, v0) :: insert k v rest
      end
  end.

(** [m.find(k)]; [None] is [m.end()]. *)
Fixpoint find {V} (k : N) (m : t V) : option V :=
  match m with
  | [] => None
  | (k0, v0) :: rest => if N.eqb k k0 then Some v0 else find k rest
  end.

Definition keys {V} (m : t V) : list N := map fst m.

End OMap.

(** ** Outcomes *)

(** A call either returns or dereferences a null pointer. *)
Inductive outcome (A : Type) : Type :=
| Returns (a : A)
| NullDeref.
Arguments Returns {A} _.
Arguments NullDeref {A}.

Definition obind {A B} (o : outcome A) (k : A -> outcome B) : outcome B :=
  match o with
  | Returns a => k a
  | NullDeref => NullDeref
  end.

(** ** Time arithmetic of [rclcpp]

    An [rclcpp::Time] and an [rclcpp::Duration] count nanoseconds in an
    [int64_t].  The library is not part of this repository: the conversions
    below follow its [time.cpp]. *)

(** The nanosecond count of a stamp. *)
Definition rclcppTime (st : Stamp) : Z := (sec st * 1000000000 + nanosec st)%Z.

(** The fields of a [builtin_interfaces::msg::Time] are an [int32] and a
    [uint32]. *)
Definition stamp_wf (st : Stamp) : Prop :=
  (- 2147483648 <= sec st < 2147483648)%Z /\ (0 <= nanosec st < 4294967296)%Z.

(** What the time library throws: [std::runtime_error] and
    [std::overflow_error]. *)
Inductive Exception : Type :=
| RuntimeError
| OverflowError.

(** A call that returns normally or throws. *)
Inductive excn (A : Type) : Type :=
| Normal (a : A)
| Raised (e : Exception).
Arguments Normal {A} _.
Arguments Raised {A} _.

(** [rclcpp::Time(const builtin_interfaces::msg::Time &)]: a stamp with
    negative seconds is refused ("cannot store a negative time point"). *)
Definition rclcppTimeFromMsg (st : Stamp) : excn Z :=
  if (sec st <? 0)%Z then Raised RuntimeError else Normal (rclcppTime st).

(** [Time::operator+(const Duration &)] for a duration that is not negative:
    a sum beyond [int64_t] is refused. *)
Definition rclcppTimePlus (t d : Z) : excn Z :=
  if (9223372036854775807 <? t + d)%Z then Raised OverflowError else Normal (t + d)%Z.

(** [static_cast<std::int32_t>] of an [int64_t]. *)
Definition int32 (z : Z) : Z := ((z + 2147483648) mod 4294967296 - 2147483648)%Z.

(** [Time::operator builtin_interfaces::msg::Time()]: [std::div] by one
    second, a negative remainder folded back, the seconds narrowed to
    [int32]. *)
Definition rclcppTimeToMsg (ns : Z) : Stamp :=
  let quot := Z.quot ns 1000000000 in
  let rem := Z.rem ns 1000000000 in
  if (0 <=? rem)%Z
  then mkStamp (int32 quot) rem
  else mkStamp (int32 (quot - 1)) (1000000000 + rem).

(** [rclcpp::Duration::from_seconds(0.5)]. *)
Definition transformTimeout_ : Z := 500000000%Z.

(** [std::min(a, b)] on [double]s: [(b < a) ? b : a]. *)
Definition std_min (a b : Q) : Q := if Qle_bool a b then a else b.

Section Interface.

Context `{G : Geometry}.

(** ** What the wrapper reads from the engine *)

(** [ORB_SLAM3::MapPoint]: [isBad()], [GetWorldPos()]. *)
Record MapPoint := mkMapPoint {
  isBad : bool;
  GetWorldPos : Vector3f
}.

(** [ORB_SLAM3::KeyFrame]: [mnId], [GetPose()], [mTimeStamp], [GetMap()],
    [GetMapPoints()]. *)
Record KeyFrame := mkKeyFrame {
  mnId : N;
  GetPose : SE3;
  mTimeStamp : Q;
  GetMap : MapPtr;
  GetMapPoints : list MapPoint
}.

(** [ORB_SLAM3::Map]: its address, [GetInitKFid()], [GetOriginKF()],
    [GetAllKeyFrames()]. *)
Record Map := mkMap {
  mapPtr : MapPtr;
  GetInitKFid : N;
  GetOriginKF : KeyFrame;
  GetAllKeyFrames : list KeyFrame
}.

(** [ORB_SLAM3::Atlas]: [GetAllMaps()], [GetCurrentMap()] and
    [GetAllKeyFrames()] (the keyframes of the current map). *)
Record Atlas := mkAtlas {
  GetAllMaps : list Map;
  GetCurrentMap : MapPtr;
  atlasGetAllKeyFrames : list KeyFrame
}.

(** [sensor_msgs::msg::Imu] and [ORB_SLAM3::IMU::Point]. *)
Record ImuMsg := mkImuMsg {
  imu_stamp : Stamp;
  linear_acceleration : Vec3 scalar;
  angular_velocity : Vec3 scalar
}.

Record ImuPoint := mkImuPoint {
  imu_acc : Point3f;
  imu_gyr : Point3f;
  imu_t : Q
}.

(** [sensor_msgs::msg::Image]. *)
Record ImageMsg := mkImageMsg {
  img_stamp : Stamp;
  img_data : ImageData
}.

(** [nav_msgs::msg::Odometry] and [geometry_msgs::msg::TransformStamped]. *)
Record Odometry := mkOdometry {
  odom_stamp : Stamp;
  odom_position : Vec3 scalar;
  odom_orientation : Quat scalar
}.

Record TransformStamped := mkTransformStamped {
  tf_stamp : Stamp;
  tf_frame_id : string;
  tf_child_frame_id : string;
  tf_translation : Vec3 scalar;
  tf_rotation : Quat scalar
}.

(** [geometry_msgs::msg::PoseStamped] and [slam_msgs::msg::MapGraph]. *)
Record PoseStamped := mkPoseStamped {
  ps_pose : PoseMsg scalar;
  ps_frame_id : string;
  ps_stamp : Stamp
}.

Record MapGraph := mkMapGraph {
  poses : list PoseStamped;
  poses_id : list N
}.

(** [slam_msgs::msg::KeyFrame] and [slam_msgs::msg::MapData]. *)
Record KeyFrameMsg := mkKeyFrameMsg {
  kfm_id : Z;
  word_pts : list (Vec3 scalar)
}.

Record MapData := mkMapData {
  md_graph : MapGraph;
  md_frame_id : string;
  md_nodes : list KeyFrameMsg
}.

(** ** The members of [ORBSLAM3Interface] *)
Record State := mkState {
  robotX_ : scalar;
  robotY_ : scalar;
  globalFrame_ : string;
  odomFrame_ : string;
  orbAtlas_ : option AtlasPtr;
  mapReferencePoses_ : gmap MapPtr Affine;
  allKFs_ : OMap.t KeyFrame;
  latestTrackedPose_ : Affine;
  hasTracked_ : bool;
  imuBuf_ : list ImuMsg
}.

Definition set_orbAtlas (a : option AtlasPtr) (s : State) : State :=
  mkState (robotX_ s) (robotY_ s) (globalFrame_ s) (odomFrame_ s)
          a (mapReferencePoses_ s) (allKFs_ s)
          (latestTrackedPose_ s) (hasTracked_ s) (imuBuf_ s).

Definition set_mapReferencePoses (t : gmap MapPtr Affine) (s : State) : State :=
  mkState (robotX_ s) (robotY_ s) (globalFrame_ s) (odomFrame_ s)
          (orbAtlas_ s) t (allKFs_ s)
          (latestTrackedPose_ s) (hasTracked_ s) (imuBuf_ s).

Definition set_allKFs (i : OMap.t KeyFrame) (s : State) : State :=
  mkState (robotX_ s) (robotY_ s) (globalFrame_ s) (odomFrame_ s)
          (orbAtlas_ s) (mapReferencePoses_ s) i
          (latestTrackedPose_ s) (hasTracked_ s) (imuBuf_ s).

Definition set_latestTrackedPose (p : Affine) (s : State) : State :=
  mkState (robotX_ s) (robotY_ s) (globalFrame_ s) (odomFrame_ s)
          (orbAtlas_ s) (mapReferencePoses_ s) (allKFs_ s)
          p (hasTracked_ s) (imuBuf_ s).

Definition set_hasTracked (b : bool) (s : State) : State :=
  mkState (robotX_ s) (robotY_ s) (globalFrame_ s) (odomFrame_ s)
          (orbAtlas_ s) (mapReferencePoses_ s) (allKFs_ s)
          (latestTrackedPose_ s) b (imuBuf_ s).

Definition set_imuBuf (b : list ImuMsg) (s : State) : State :=
  mkState (robotX_ s) (robotY_ s) (globalFrame_ s) (odomFrame_ s)
          (orbAtlas_ s) (mapReferencePoses_ s) (allKFs_ s)
          (latestTrackedPose_ s) (hasTracked_ s) b.

(** ** [makeKFIdPair] *)
Definition makeKFIdPair (mapsList : list Map) : OMap.t KeyFrame :=
  fold_left
    (fun mpIdKFs pMap_i =>
       fold_left
         (fun mpIdKFs pKF_j_Mi => OMap.insert (mnId pKF_j_Mi) pKF_j_Mi mpIdKFs)
         (GetAllKeyFrames pMap_i) mpIdKFs)
    mapsList OMap.empty.

(** ** [calculateReferencePoses] *)

(** [compareInitKFid]. *)
Definition compareInitKFid (elem1 elem2 : Map) : bool :=
  GetInitKFid elem1 <? GetInitKFid elem2.

(** [std::sort(mapsList.begin(), mapsList.end(), compareInitKFid())], as the
    insertion sort that libstdc++ runs on a short vector: maps of equal
    [GetInitKFid] keep their atlas order. *)
Fixpoint sortInsert (m : Map) (sorted : list Map) : list Map :=
  match sorted with
  | [] => [m]
  | x :: rest =>
      if compareInitKFid x m then x :: sortInsert m rest else m :: sorted
  end.

Definition sortMaps (mapsList : list Map) : list Map :=
  fold_right sortInsert [] mapsList.

(** [typeConversions_->transformPoseWithReference<Eigen::Affine3d>].
    Modelled from the spec: the helper is part of the type conversions,
    which are not in this file; the projection of a local pose is
    the affine composition [referencePose * localPose]. *)
Definition transformPoseWithReference (referencePose : Affine) (s : SE3) : Affine :=
  compose referencePose (se3ToAffine s).

(** [mapReferencePoses_[k]] read as a value: [operator[]] stores a
    default-constructed transform under a key that is not yet there.  Here
    every default construction leaves the same transform, [affineDefault];
    [refPoseAtU] below lifts that restriction. *)
Definition refPoseAt (k : MapPtr) (tbl : gmap MapPtr Affine)
  : Affine * gmap MapPtr Affine :=
  match tbl !! k with
  | Some a => (a, tbl)
  | None => (affineDefault, <[k := affineDefault]> tbl)
  end.

Definition poseOffset (s : State) : Affine :=
  mkAffine (mkVec3 (robotX_ s) (robotY_ s) zero) (mkQuat one zero zero zero).

(** The body of the [for] loop, for the map [mapsList[c]].  In the [else]
    branch [allKFs_[id]] yields a null pointer when the index has no
    keyframe [id], and [->GetPose()] dereferences it. *)
Definition resolveMap (s : State) (allKFs : OMap.t KeyFrame)
           (tbl : gmap MapPtr Affine) (m : Map) : outcome (gmap MapPtr Affine) :=
  if GetInitKFid m =? 0 then
    let poseWithoutOffset := se3ToAffine (GetPose (GetOriginKF m)) in
    Returns (<[mapPtr m := compose (poseOffset s) poseWithoutOffset]> tbl)
  else
    match OMap.find (GetInitKFid m - 1) allKFs with
    | None => NullDeref
    | Some kf =>
        let parentMapPose := GetPose kf in
        let '(ref, tbl1) := refPoseAt (GetMap kf) tbl in
        Returns (<[mapPtr m := transformPoseWithReference ref parentMapPose]> tbl1)
    end.

Fixpoint resolveLoop (s : State) (allKFs : OMap.t KeyFrame)
         (mapsList : list Map) (tbl : gmap MapPtr Affine)
  : outcome (gmap MapPtr Affine) :=
  match mapsList with
  | [] => Returns tbl
  | m :: rest =>
      obind (resolveMap s allKFs tbl m) (resolveLoop s allKFs rest)
  end.

(** [mem] gives the atlas an atlas pointer points to at the time of the
    call. *)
Definition calculateReferencePoses (mem : AtlasPtr -> Atlas) (s : State)
  : outcome State :=
  match orbAtlas_ s with
  | None => NullDeref
  | Some a =>
      let mapsList := sortMaps (GetAllMaps (mem a)) in
      let allKFs := makeKFIdPair mapsList in
      obind (resolveLoop s allKFs mapsList ∅)
            (fun tbl => Returns (set_mapReferencePoses tbl (set_allKFs allKFs s)))
  end.

(** ** [calculateReferencePoses], the default construction made explicit

    The default constructor of [Eigen::Affine3d] does not initialise the
    transform, so what [operator[]] stores under a new key is whatever the
    storage of the new node held.  [uninit k] is the transform that the
    default construction under the key [k] leaves during this pass; a pass
    constructs under a key at most once, since nothing is erased after the
    [clear()].  In the assignment of l.88 the right-hand side is evaluated
    before [mapReferencePoses_[mapsList[c]]] on the left. *)
Definition refPoseAtU (uninit : MapPtr -> Affine) (k : MapPtr)
           (tbl : gmap MapPtr Affine) : Affine * gmap MapPtr Affine :=
  match tbl !! k with
  | Some a => (a, tbl)
  | None => (uninit k, <[k := uninit k]> tbl)
  end.

Definition resolveMapU (uninit : MapPtr -> Affine) (s : State)
           (allKFs : OMap.t KeyFrame) (tbl : gmap MapPtr Affine) (m : Map)
  : outcome (gmap MapPtr Affine) :=
  if GetInitKFid m =? 0 then
    let poseWithoutOffset := se3ToAffine (GetPose (GetOriginKF m)) in
    Returns (<[mapPtr m := compose (poseOffset s) poseWithoutOffset]> tbl)
  else
    match OMap.find (GetInitKFid m - 1) allKFs with
    | None => NullDeref
    | Some kf =>
        let parentMapPose := GetPose kf in
        let '(ref, tbl1) := refPoseAtU uninit (GetMap kf) tbl in
        Returns (<[mapPtr m := transformPoseWithReference ref parentMapPose]> tbl1)
    end.

Fixpoint resolveLoopU (uninit : MapPtr -> Affine) (s : State)
         (allKFs : OMap.t KeyFrame) (mapsList : list Map)
         (tbl : gmap MapPtr Affine) : outcome (gmap MapPtr Affine) :=
  match mapsList with
  | [] => Returns tbl
  | m :: rest =>
      obind (resolveMapU uninit s allKFs tbl m) (resolveLoopU uninit s allKFs rest)
  end.

Definition calculateReferencePosesU (uninit : MapPtr -> Affine)
           (mem : AtlasPtr -> Atlas) (s : State) : outcome State :=
  match orbAtlas_ s with
  | None => NullDeref
  | Some a =>
      let mapsList := sortMaps (GetAllMaps (mem a)) in
      let allKFs := makeKFIdPair mapsList in
      obind (resolveLoopU uninit s allKFs mapsList ∅)
            (fun tbl => Returns (set_mapReferencePoses tbl (set_allKFs allKFs s)))
  end.

(** ** [correctTrackedPose] *)
Definition correctTrackedPose (mem : AtlasPtr -> Atlas) (Tcw : SE3) (s : State)
  : outcome State :=
  match orbAtlas_ s with
  | None => NullDeref
  | Some a =>
      let '(ref, tbl) := refPoseAt (GetCurrentMap (mem a)) (mapReferencePoses_ s) in
      Returns (set_latestTrackedPose (transformPoseWithReference ref Tcw)
                 (set_mapReferencePoses tbl s))
  end.

(** ** [getMapToOdomTF]

    [tf] is the caller's message, passed by reference; the result is the
    message after the call.  The conversion of the odometry stamp to an
    [rclcpp::Time] and the addition of the timeout may throw; they come
    before the first write to [tf]. *)
Definition getMapToOdomTF (msgOdom : Odometry) (tf : TransformStamped) (s : State)
  : excn TransformStamped :=
  if hasTracked_ s then
    let latestOdomTransform_ :=
      mkAffine (odom_position msgOdom) (odom_orientation msgOdom) in
    let tfMapOdom := compose (latestTrackedPose_ s) (inverse latestOdomTransform_) in
    let poseMapOdom := toMsg tfMapOdom in
    match rclcppTimeFromMsg (odom_stamp msgOdom) with
    | Raised e => Raised e
    | Normal odomTimestamp =>
        match rclcppTimePlus odomTimestamp transformTimeout_ with
        | Raised e => Raised e
        | Normal stamp =>
            Normal
              (mkTransformStamped
                 (rclcppTimeToMsg stamp)
                 (globalFrame_ s)
                 (odomFrame_ s)
                 (mkVec3 (vx (position poseMapOdom)) (vy (position poseMapOdom))
                         (vz (position poseMapOdom)))
                 (orientation poseMapOdom))
        end
    end
  else Normal tf.

(** ** [getOptimizedPoseGraph] *)

(** [typeConversions_->transformPoseWithReference<geometry_msgs::msg::Pose>]:
    the same composition, returned as a pose message. *)
Definition transformPoseWithReferenceMsg (referencePose : Affine) (s : SE3)
  : PoseMsg scalar :=
  toMsg (transformPoseWithReference referencePose s).

(** One iteration of either loop: the keyframe is projected through the
    reference pose of its map and pushed on the graph. *)
Definition pushKeyFrame (globalFrame : string) (kf : KeyFrame)
           (acc : MapGraph * gmap MapPtr Affine) : MapGraph * gmap MapPtr Affine :=
  let '(graph, tbl) := acc in
  let '(ref, tbl1) := refPoseAt (GetMap kf) tbl in
  let kfPoseStamped :=
    mkPoseStamped (transformPoseWithReferenceMsg ref (GetPose kf))
                  globalFrame
                  (secToStamp (mTimeStamp kf)) in
  (mkMapGraph (poses graph ++ [kfPoseStamped]) (poses_id graph ++ [mnId kf]), tbl1).

Definition getOptimizedPoseGraph (mem : AtlasPtr -> Atlas) (graph : MapGraph)
           (currentMapKFOnly : bool) (s : State) : outcome (MapGraph * State) :=
  if negb currentMapKFOnly then
    let '(graph1, tbl) :=
      fold_left (fun acc cKf => pushKeyFrame (globalFrame_ s) (snd cKf) acc)
                (allKFs_ s) (graph, mapReferencePoses_ s) in
    Returns (graph1, set_mapReferencePoses tbl s)
  else
    match orbAtlas_ s with
    | None => NullDeref
    | Some a =>
        let vKeyFrames := atlasGetAllKeyFrames (mem a) in
        let '(graph1, tbl) :=
          fold_left (fun acc pKFcurr => pushKeyFrame (globalFrame_ s) pKFcurr acc)
                    vKeyFrames (graph, mapReferencePoses_ s) in
        Returns (graph1, set_mapReferencePoses tbl s)
    end.

(** ** [getCurrentMapPoints] and [mapDataToMsg] *)

Fixpoint ofold {A B} (f : B -> A -> outcome B) (l : list A) (b : B) : outcome B :=
  match l with
  | [] => Returns b
  | x :: rest => obind (f b x) (ofold f rest)
  end.

(** The body of the inner loop of [getCurrentMapPoints] for one map point of
    the keyframe [KF]: [allKFs_[KF->mnId]] is a null pointer when the index
    does not hold the keyframe. *)
Definition pushMapPoint (allKFs : OMap.t KeyFrame) (KF : KeyFrame)
           (acc : list Vector3f * gmap MapPtr Affine) (mapPoint : MapPoint)
  : outcome (list Vector3f * gmap MapPtr Affine) :=
  let '(trackedMapPoints, tbl) := acc in
  if negb (isBad mapPoint) then
    let worldPos := vector3fORBToROS (GetWorldPos mapPoint) in
    match OMap.find (mnId KF) allKFs with
    | None => NullDeref
    | Some kf =>
        let '(ref, tbl1) := refPoseAt (GetMap kf) tbl in
        Returns (trackedMapPoints ++ [transformPointWithReference ref worldPos], tbl1)
    end
  else Returns acc.

Definition getCurrentMapPoints (mem : AtlasPtr -> Atlas) (s : State)
  : outcome (PointCloud2 * State) :=
  match orbAtlas_ s with
  | None => NullDeref
  | Some a =>
      obind
        (ofold (fun acc KF => ofold (pushMapPoint (allKFs_ s) KF) (GetMapPoints KF) acc)
               (atlasGetAllKeyFrames (mem a)) ([], mapReferencePoses_ s))
        (fun '(trackedMapPoints, tbl) =>
           Returns (MapPointsToPCL trackedMapPoints, set_mapReferencePoses tbl s))
  end.

(** An [int] keyframe identifier converted to [long unsigned int]. *)
Definition kfKey (kFId : Z) : N := Z.to_N (kFId mod 2 ^ 64).

(** The points of one requested keyframe: the map points that are not bad,
    projected through the reference pose of the keyframe's map. *)
Definition pushWordPoint (kf : KeyFrame)
           (acc : list (Vec3 scalar) * gmap MapPtr Affine) (mapPoint : MapPoint)
  : list (Vec3 scalar) * gmap MapPtr Affine :=
  let '(pts, tbl) := acc in
  if negb (isBad mapPoint) then
    let worldPos := vector3fORBToROS (GetWorldPos mapPoint) in
    let '(ref, tbl1) := refPoseAt (GetMap kf) tbl in
    (pts ++ [transformPointWithReferenceMsg ref worldPos], tbl1)
  else acc.

(** One iteration of the loop over [kFIDforMapPoints]; an identifier that
    the index does not hold is reported and skipped. *)
Definition pushNode (allKFs : OMap.t KeyFrame)
           (acc : list KeyFrameMsg * gmap MapPtr Affine) (kFId : Z)
  : list KeyFrameMsg * gmap MapPtr Affine :=
  let '(nodes, tbl) := acc in
  match OMap.find (kfKey kFId) allKFs with
  | Some kf =>
      let '(pts, tbl1) := fold_left (pushWordPoint kf) (GetMapPoints kf) ([], tbl) in
      (nodes ++ [mkKeyFrameMsg kFId pts], tbl1)
  | None => acc
  end.

Definition mapDataToMsg (mem : AtlasPtr -> Atlas) (mapDataMsg : MapData)
           (currentMapKFOnly includeMapPoints : bool) (kFIDforMapPoints : list Z)
           (s : State) : outcome (MapData * State) :=
  obind (getOptimizedPoseGraph mem (mkMapGraph [] []) currentMapKFOnly s)
        (fun '(poseGraph_, s1) =>
           if includeMapPoints then
             let '(nodes, tbl) :=
               fold_left (pushNode (allKFs_ s1)) kFIDforMapPoints
                         (md_nodes mapDataMsg, mapReferencePoses_ s1) in
             Returns (mkMapData poseGraph_ (globalFrame_ s1) nodes,
                      set_mapReferencePoses tbl s1)
           else
             Returns (mkMapData poseGraph_ (globalFrame_ s1) (md_nodes mapDataMsg), s1)).

(** ** [handleIMU] *)
Definition handleIMU (msgIMU : ImuMsg) (s : State) : State :=
  set_imuBuf (imuBuf_ s ++ [msgIMU]) s.

(** ** [trackRGBDi] and [trackRGBD] *)

(** What the engine answers during one tracking call: [GetAtlas()], the
    pose returned by [TrackRGBD], [GetTrackingState()],
    [GetLoopClosing()->mergeDetected()], and the atlas as it is once
    [TrackRGBD] has returned. *)
Record EngineStep := mkEngineStep {
  eng_GetAtlas : AtlasPtr;
  eng_TrackRGBD : SE3;
  eng_GetTrackingState : Z;
  eng_mergeDetected : bool;
  eng_mem : AtlasPtr -> Atlas
}.

(** The arguments of one [mSLAM_->TrackRGBD] call. *)
Record TrackCall := mkTrackCall {
  call_rgb : CvImage;
  call_depth : CvImage;
  call_time : Q;
  call_imu : list ImuPoint
}.

(** What a tracking call leaves behind besides the new state: the value it
    returns, the pose written to [Tcw] if any, the final content of its
    local [vImuMeas], and the engine call it made if any. *)
Record TrackResult := mkTrackResult {
  tr_ret : bool;
  tr_Tcw : option SE3;
  tr_vImuMeas : list ImuPoint;
  tr_call : option TrackCall
}.

Definition imuPoint (m : ImuMsg) : ImuPoint :=
  let t := stampToSec (imu_stamp m) in
  let acc := cvPoint3f (vx (linear_acceleration m)) (vy (linear_acceleration m))
                       (vz (linear_acceleration m)) in
  let gyr := cvPoint3f (vx (angular_velocity m)) (vy (angular_velocity m))
                       (vz (angular_velocity m)) in
  mkImuPoint acc gyr t.

(** The [while] loop over the buffer: [tFrame] is the smaller of the two
    image stamps; the result is [vImuMeas] and what is left of [imuBuf_]. *)
Fixpoint drainImu (tFrame : Q) (imuBuf : list ImuMsg) (vImuMeas : list ImuPoint)
  : list ImuPoint * list ImuMsg :=
  match imuBuf with
  | [] => (vImuMeas, [])
  | front :: rest =>
      if Qle_bool (stampToSec (imu_stamp front)) tFrame
      then drainImu tFrame rest (vImuMeas ++ [imuPoint front])
      else (vImuMeas, imuBuf)
  end.

(** The part both entry points share, from the engine's answer on. *)
Definition afterTrack (eng : EngineStep) (setHasTracked : bool)
           (vImuMeas : list ImuPoint) (call : TrackCall) (s : State)
  : outcome (TrackResult * State) :=
  let Tcw := eng_TrackRGBD eng in
  let currentTrackingState := eng_GetTrackingState eng in
  if eng_mergeDetected eng then
    Returns (mkTrackResult false (Some Tcw) vImuMeas (Some call), s)
  else if (currentTrackingState =? 2)%Z then
    obind (calculateReferencePoses (eng_mem eng) s) (fun s1 =>
    obind (correctTrackedPose (eng_mem eng) Tcw s1) (fun s2 =>
    let s3 := if setHasTracked then set_hasTracked true s2 else s2 in
    Returns (mkTrackResult true (Some Tcw) vImuMeas (Some call), s3)))
  else
    Returns (mkTrackResult false (Some Tcw) vImuMeas (Some call), s).

Definition trackRGBDi (eng : EngineStep) (msgRGB msgD : ImageMsg) (s : State)
  : outcome (TrackResult * State) :=
  let s := set_orbAtlas (Some (eng_GetAtlas eng)) s in
  match toCvShare (img_data msgRGB) with
  | None => Returns (mkTrackResult false None [] None, s)
  | Some cvRGB =>
      match toCvShare (img_data msgD) with
      | None => Returns (mkTrackResult false None [] None, s)
      | Some cvD =>
          let tFrame := std_min (stampToSec (img_stamp msgRGB))
                                (stampToSec (img_stamp msgD)) in
          let '(vImuMeas, imuBuf) := drainImu tFrame (imuBuf_ s) [] in
          let s := set_imuBuf imuBuf s in
          if (0 <? length imuBuf)%nat then
            afterTrack eng true vImuMeas
              (mkTrackCall cvRGB cvD (stampToSec (img_stamp msgRGB)) vImuMeas) s
          else
            Returns (mkTrackResult false None vImuMeas None, s)
      end
  end.

Definition trackRGBD (eng : EngineStep) (msgRGB msgD : ImageMsg) (s : State)
  : outcome (TrackResult * State) :=
  match toCvShare (img_data msgRGB) with
  | None => Returns (mkTrackResult false None [] None, s)
  | Some cvRGB =>
      match toCvShare (img_data msgD) with
      | None => Returns (mkTrackResult false None [] None, s)
      | Some cvD =>
          afterTrack eng false []
            (mkTrackCall cvRGB cvD (stampToSec (img_stamp msgRGB)) []) s
      end
  end.

(** ** Sequences of calls in inertial mode

    The node feeds the interface with inertial messages and image pairs as
    they arrive.  [runInertial] replays such a sequence and keeps, for each
    image pair, the two messages and the result of the call. *)
Inductive Event :=
| EvImu (msgIMU : ImuMsg)
| EvFrame (eng : EngineStep) (msgRGB msgD : ImageMsg).

Fixpoint runInertial (evs : list Event) (s : State)
  : outcome (list (ImageMsg * ImageMsg * TrackResult) * State) :=
  match evs with
  | [] => Returns ([], s)
  | EvImu msgIMU :: rest => runInertial rest (handleIMU msgIMU s)
  | EvFrame eng msgRGB msgD :: rest =>
      obind (trackRGBDi eng msgRGB msgD s) (fun '(r, s1) =>
      obind (runInertial rest s1) (fun '(rs, s2) =>
      Returns ((msgRGB, msgD, r) :: rs, s2)))
  end.

(** The inertial messages a sequence of events delivers, in order. *)
Definition arrivals (evs : list Event) : list ImuMsg :=
  flat_map (fun ev => match ev with EvImu m => [m] | EvFrame _ _ _ => [] end) evs.

End Interface.

(** ** Invariants and reachable states *)
Section Invariants.

Context `{G : Geometry}.

(** The keyframe index holds every keyframe under its own identifier, and
    its keys ascend strictly. *)
Definition index_ok (idx : OMap.t KeyFrame) : Prop :=
  StronglySorted N.lt (OMap.keys idx) /\
  Forall (fun e => fst e = mnId (snd e)) idx.

(** What [mapReferencePoses_[k]] reads: the stored pose, or the default
    transform when there is none. *)
Definition refOrDefault (tbl : gmap MapPtr Affine) (k : MapPtr) : Affine :=
  default affineDefault (tbl !! k).

(** The pose-graph entry of the keyframe [kf] under the table [tbl]. *)
Definition stampedPose (frame : string) (tbl : gmap MapPtr Affine) (kf : KeyFrame)
  : PoseStamped :=
  mkPoseStamped
    (transformPoseWithReferenceMsg (refOrDefault tbl (GetMap kf)) (GetPose kf))
    frame
    (secToStamp (mTimeStamp kf)).

(** The order in which [calculateReferencePoses] visits the maps. *)
Definition le_init (a b : Map) : Prop := GetInitKFid a <= GetInitKFid b.

(** The table [tbl] holds a reference pose for exactly the maps of [done]:
    the fixed offset composed with the origin keyframe's pose for a map that
    starts at keyframe 0, and for any other map the reference pose of the map
    that owns its parent keyframe composed with that keyframe's pose. *)
Definition resolved (s : State) (allKFs : OMap.t KeyFrame) (done : list Map)
           (tbl : gmap MapPtr Affine) : Prop :=
  (forall p, is_Some (tbl !! p) <-> exists m, m ∈ done /\ mapPtr m = p) /\
  (forall m, m ∈ done -> GetInitKFid m = 0 ->
     tbl !! mapPtr m =
       Some (compose (poseOffset s) (se3ToAffine (GetPose (GetOriginKF m))))) /\
  (forall m, m ∈ done -> GetInitKFid m <> 0 ->
     exists kf ref,
       OMap.find (GetInitKFid m - 1) allKFs = Some kf /\
       tbl !! GetMap kf = Some ref /\
       tbl !! mapPtr m = Some (compose ref (se3ToAffine (GetPose kf)))).

(** The states of an interface: constructed with an empty keyframe index,
    then changed by its member functions only. *)
Inductive reachable : State -> Prop :=
| reach_init s :
    allKFs_ s = OMap.empty -> reachable s
| reach_handleIMU s msgIMU :
    reachable s -> reachable (handleIMU msgIMU s)
| reach_trackRGBDi s eng msgRGB msgD r s' :
    reachable s -> trackRGBDi eng msgRGB msgD s = Returns (r, s') -> reachable s'
| reach_trackRGBD s eng msgRGB msgD r s' :
    reachable s -> trackRGBD eng msgRGB msgD s = Returns (r, s') -> reachable s'
| reach_getOptimizedPoseGraph s mem graph only graph' s' :
    reachable s ->
    getOptimizedPoseGraph mem graph only s = Returns (graph', s') -> reachable s'
| reach_calculateReferencePoses s mem s' :
    reachable s -> calculateReferencePoses mem s = Returns s' -> reachable s'
| reach_correctTrackedPose s mem Tcw s' :
    reachable s -> correctTrackedPose mem Tcw s = Returns s' -> reachable s'
| reach_getCurrentMapPoints s mem cloud s' :
    reachable s -> getCurrentMapPoints mem s = Returns (cloud, s') -> reachable s'
| reach_mapDataToMsg s mem msg only points ids msg' s' :
    reachable s ->
    mapDataToMsg mem msg only points ids s = Returns (msg', s') -> reachable s'.

End Invariants.

(** ** Reads of the reference-pose table and of the map points *)
Section Views.

Context `{G : Geometry}.

(** [tbl'] is [tbl] with default transforms stored under some keys that
    [tbl] does not hold: what reading through [operator[]] does to the
    table. *)
Definition defaults_added (tbl tbl' : gmap MapPtr Affine) : Prop :=
  (forall k v, tbl !! k = Some v -> tbl' !! k = Some v) /\
  (forall k v, tbl' !! k = Some v ->
               tbl !! k = Some v \/ (tbl !! k = None /\ v = affineDefault)).

(** The map points of a keyframe that the engine has not retired. *)
Definition goodPoints (kf : KeyFrame) : list MapPoint :=
  List.filter (fun mapPoint => negb (isBad mapPoint)) (GetMapPoints kf).

(** The smaller of the two image stamps of a frame. *)
Definition frameTime (msgRGB msgD : ImageMsg) : Q :=
  std_min (stampToSec (img_stamp msgRGB)) (stampToSec (img_stamp msgD)).

(** An inertial message stamped later than [t]. *)
Definition laterThan (t : Q) (m : ImuMsg) : bool :=
  negb (Qle_bool (stampToSec (imu_stamp m)) t).

End Views.

(** ** Views used by the further properties *)
Section MoreViews.
Context `{G : Geometry}.
(** The node of a requested identifier: none when the index does not hold
    it. *)
Definition nodesFor (allKFs : OMap.t KeyFrame) (tbl : gmap MapPtr Affine)
           (kFId : Z) : list KeyFrameMsg :=
  match OMap.find (kfKey kFId) allKFs with
  | Some kf =>
      [mkKeyFrameMsg kFId
         (map (fun mapPoint =>
                 transformPointWithReferenceMsg
                   (refOrDefault tbl (GetMap kf))
                   (vector3fORBToROS (GetWorldPos mapPoint)))
              (goodPoints kf))]
  | None => []
  end.

(** The points of the cloud that come from the keyframe [KF] of the current
    map: its good map points, projected through the reference pose read for
    the map of the keyframe indexed under [KF]'s identifier. *)
Definition cloudFor (allKFs : OMap.t KeyFrame) (tbl : gmap MapPtr Affine)
           (KF : KeyFrame) : list Vector3f :=
  match OMap.find (mnId KF) allKFs with
  | Some kf =>
      map (fun mapPoint =>
             transformPointWithReference
               (refOrDefault tbl (GetMap kf))
               (vector3fORBToROS (GetWorldPos mapPoint)))
          (goodPoints KF)
  | None => []
  end.

(** Inertial messages in the order of their stamps. *)
Definition byStamp (a b : ImuMsg) : Prop :=
  (stampToSec (imu_stamp a) <= stampToSec (imu_stamp b))%Q.

End MoreViews.

(** ** The buffer along a sequence of calls *)
Section BufferViews.

Context `{G : Geometry}.

(** A sample that the frame [(msgRGB, msgD)] is due: stamped no later than
    the image and the depth stamp. *)
Definition dueFor (msgRGB msgD : ImageMsg) (m : ImuMsg) : Prop :=
  (stampToSec (imu_stamp m) <= stampToSec (img_stamp msgRGB))%Q /\
  (stampToSec (imu_stamp m) <= stampToSec (img_stamp msgD))%Q.

(** Both images of the frame convert. *)
Definition decodes (msgRGB msgD : ImageMsg) : Prop :=
  is_Some (toCvShare (img_data msgRGB)) /\ is_Some (toCvShare (img_data msgD)).

(** One inertial-mode call with result [r] on the buffer [before]: the
    samples of [batch] are removed from its front and those of [kept] stay.
    The batch is the longest prefix of samples due for the frame (empty when
    an image does not convert), and the engine is called, with the batch and
    the frame, exactly when both images convert and [kept] is not empty. *)
Definition frameStep (msgRGB msgD : ImageMsg) (r : TrackResult)
           (before batch kept : list ImuMsg) : Prop :=
  before = batch ++ kept /\
  tr_vImuMeas r = map imuPoint batch /\
  Forall (dueFor msgRGB msgD) batch /\
  (decodes msgRGB msgD ->
   forall m rest, kept = m :: rest -> ~ dueFor msgRGB msgD m) /\
  (~ decodes msgRGB msgD -> batch = []) /\
  (decodes msgRGB msgD -> kept <> [] ->
   exists c,
     tr_call r = Some c /\
     call_imu c = map imuPoint batch /\
     call_time c = stampToSec (img_stamp msgRGB) /\
     toCvShare (img_data msgRGB) = Some (call_rgb c) /\
     toCvShare (img_data msgD) = Some (call_depth c)) /\
  (~ (decodes msgRGB msgD /\ kept <> []) -> tr_call r = None).

(** The buffer along the events [evs], from [buf] to [final]: a message is
    appended, and the call for each frame, whose result is the next entry of
    [rs], does the next step of [steps], a batch and what it keeps. *)
Fixpoint bufferSteps (evs : list Event)
         (rs : list (ImageMsg * ImageMsg * TrackResult)) (buf : list ImuMsg)
         (steps : list (list ImuMsg * list ImuMsg)) (final : list ImuMsg) : Prop :=
  match evs with
  | [] => rs = [] /\ steps = [] /\ final = buf
  | EvImu msgIMU :: rest => bufferSteps rest rs (buf ++ [msgIMU]) steps final
  | EvFrame _ msgRGB msgD :: rest =>
      match rs, steps with
      | x :: rs', (batch, kept) :: steps' =>
          x.1 = (msgRGB, msgD) /\
          frameStep msgRGB msgD x.2 buf batch kept /\
          bufferSteps rest rs' kept steps' final
      | _, _ => False
      end
  end.

End BufferViews.

(** ** A geometry to run the interface on

    Translations with integer coordinates: composition adds, inversion
    negates, rotations are ignored.  Stamps convert to seconds exactly. *)
Definition vadd (a b : Vec3 Z) : Vec3 Z :=
  mkVec3 (vx a + vx b)%Z (vy a + vy b)%Z (vz a + vz b)%Z.

Definition vopp (a : Vec3 Z) : Vec3 Z :=
  mkVec3 (- vx a)%Z (- vy a)%Z (- vz a)%Z.

Definition translations : Geometry := {|
  scalar := Z;
  zero := 0%Z;
  one := 1%Z;
  SE3 := Vec3 Z;
  Affine := Vec3 Z;
  compose := vadd;
  inverse := vopp;
  mkAffine := fun v _ => v;
  affineDefault := mkVec3 0%Z 0%Z 0%Z;
  se3ToAffine := fun v => v;
  toMsg := fun a => mkPoseMsg a (mkQuat 1%Z 0%Z 0%Z 0%Z);
  stampToSec := fun st => Qmake (rclcppTime st) 1000000000;
  secToStamp := fun q => mkStamp (Qfloor q) (Qfloor ((q - inject_Z (Qfloor q)) * 1000000000));
  Point3f := Vec3 Z;
  cvPoint3f := mkVec3;
  ImageData := bool;
  CvImage := unit;
  toCvShare := fun ok => if ok then Some tt else None;
  Vector3f := Vec3 Z;
  vector3fORBToROS := fun v => v;
  transformPointWithReference := vadd;
  transformPointWithReferenceMsg := vadd;
  PointCloud2 := list (Vec3 Z);
  MapPointsToPCL := fun pts => pts
|}.

(** Concrete inputs used to run the code. *)
Module Demo.

#[local] Existing Instance translations.

(** A stamp given in milliseconds. *)
Definition stampMs (ms : Z) : Stamp :=
  mkStamp (ms / 1000) ((ms mod 1000) * 1000000).

Definition imuAt (ms : Z) : ImuMsg :=
  mkImuMsg (stampMs ms) (mkVec3 0 0 9)%Z (mkVec3 0 0 0)%Z.

Definition imageAt (ms : Z) (decodable : bool) : ImageMsg :=
  mkImageMsg (stampMs ms) decodable.

Definition kf (id : N) (x : Z) (owner : MapPtr) : KeyFrame :=
  mkKeyFrame id (mkVec3 x 0 0)%Z (inject_Z (Z.of_N id)) owner
             [mkMapPoint false (mkVec3 x 1 1)%Z; mkMapPoint true (mkVec3 x 2 2)%Z].
Arguments kf id%_N x%_Z owner%_positive.

(** The first map of a session, with keyframes 0 to 4. *)
Definition mapA : Map :=
  mkMap 1%positive 0 (kf 0 0 1)
        [kf 0 0 1; kf 1 1 1; kf 2 2 1; kf 3 3 1; kf 4 4 1].

(** A map started at keyframe 5, after keyframe 4 of [mapA]. *)
Definition mapB : Map :=
  mkMap 2%positive 5 (kf 5 0 2) [kf 5 0 2; kf 6 1 2].

Definition atlasAB : Atlas :=
  mkAtlas [mapB; mapA] 2%positive (GetAllKeyFrames mapB).

(** The interface as constructed, at robot start position (10, 20). *)
Definition fresh : State :=
  mkState 10%Z 20%Z "map" "odom" None ∅ OMap.empty (mkVec3 0 0 0)%Z false [].

(** The engine tracks: state 2, no merge, pose (1, 0, 0), atlas [atl]. *)
Definition tracking (atl : Atlas) : EngineStep :=
  mkEngineStep 1%positive (mkVec3 1 0 0)%Z 2%Z false (fun _ => atl).

(** The interface once an inertial-mode call has cached the atlas handle
    (here a call whose image could not be decoded). *)
Definition primed : State := set_orbAtlas (Some 1%positive) fresh.

(** Four inertial samples stamped 1.0, 1.2, 1.5 and 2.0 seconds are waiting. *)
Definition buffered : State :=
  set_imuBuf [imuAt 1000; imuAt 1200; imuAt 1500; imuAt 2000] fresh.

(** The engine reports a merge in progress while tracking. *)
Definition merging (atl : Atlas) : EngineStep :=
  mkEngineStep 1%positive (mkVec3 1 0 0)%Z 2%Z true (fun _ => atl).

(** [mapA] after the engine culled its keyframe 4. *)
Definition mapA_culled : Map :=
  mkMap 1%positive 0 (kf 0 0 1) [kf 0 0 1; kf 1 1 1; kf 2 2 1; kf 3 3 1].

Definition atlasCulled : Atlas :=
  mkAtlas [mapB; mapA_culled] 2%positive (GetAllKeyFrames mapB).

(** The only map left once a merge has moved the keyframes of [mapA] into
    [mapB] and dropped [mapA]: it starts at keyframe 5 and owns keyframe 4. *)
Definition mapMerged : Map :=
  mkMap 2%positive 5 (kf 5 0 2) [kf 3 3 2; kf 4 4 2; kf 5 0 2; kf 6 1 2].

Definition atlasMerged : Atlas :=
  mkAtlas [mapMerged] 2%positive (GetAllKeyFrames mapMerged).

(** The state after a first successful inertial-mode call on [atlasAB]. *)
Definition tracked : State :=
  match trackRGBDi (tracking atlasAB) (imageAt 1600 true) (imageAt 1600 true)
                   (handleIMU (imuAt 2000) fresh) with
  | Returns (_, s) => s
  | NullDeref => fresh
  end.

Definition odomAt (ms : Z) : Odometry :=
  mkOdometry (stampMs ms) (mkVec3 1 2 0)%Z (mkQuat 1 0 0 0)%Z.

Definition staleTf : TransformStamped :=
  mkTransformStamped (stampMs 0) "old" "older" (mkVec3 7 7 7)%Z (mkQuat 1 0 0 0)%Z.

End Demo.

(** More concrete inputs. *)
Module DemoMore.

Import Demo.
#[local] Existing Instance translations.

(** The engine has lost track: state 3, no merge. *)
Definition lost (atl : Atlas) : EngineStep :=
  mkEngineStep 1%positive (mkVec3 1 0 0)%Z 3%Z false (fun _ => atl).

(** [atlasAB] once the engine has added keyframe 7 to the current map. *)
Definition atlasNewKF : Atlas :=
  mkAtlas [mapB; mapA] 2%positive [kf 5 0 2; kf 7 2 2].

(** An empty map-data message. *)
Definition emptyMapData : MapData := mkMapData (mkMapGraph [] []) "" [].

End DemoMore.

(** * Properties *)

(** ** The ordered map *)
Module OMapFacts.

Import OMap.

Lemma find_insert {V} (k k' : N) (v : V) (m : t V) :
  find k' (insert k v m) = if k' =? k then Some v else find k' m.
Proof.
  induction m as [|[k0 v0] rest IH]; simpl.
  - reflexivity.
  - destruct (N.compare_spec k k0) as [Heq|Hlt|Hgt]; simpl.
    + subst k0. destruct (k' =? k); reflexivity.
    + reflexivity.
    + rewrite IH.
      destruct (N.eqb_spec k' k0) as [->|Hne]; [|reflexivity].
      destruct (N.eqb_spec k0 k); [lia|reflexivity].
Qed.

(** Every key of [insert k v m] is [k] or a key of [m]. *)
Lemma keys_insert_incl {V} (k : N) (v : V) (m : t V) (x : N) :
  x ∈ keys (insert k v m) -> x = k \/ x ∈ keys m.
Proof.
  induction m as [|[k0 v0] rest IH]; simpl.
  - rewrite list_elem_of_singleton. auto.
  - destruct (N.compare_spec k k0); simpl; rewrite !elem_of_cons; intuition.
Qed.

Lemma insert_sorted {V} (k : N) (v : V) (m : t V) :
  StronglySorted N.lt (keys m) -> StronglySorted N.lt (keys (insert k v m)).
Proof.
  induction m as [|[k0 v0] rest IH]; simpl; intros Hs.
  - repeat constructor.
  - apply StronglySorted_inv in Hs as [Hrest Hall].
    destruct (N.compare_spec k k0) as [Heq|Hlt|Hgt]; simpl.
    + subst k0. constructor; assumption.
    + constructor; [constructor; assumption|].
      constructor; [assumption|].
      eapply Forall_impl; [exact Hall|]. simpl. intros; lia.
    + constructor; [apply IH; assumption|].
      apply Forall_forall. intros x Hx.
      apply keys_insert_incl in Hx as [->|Hx]; [assumption|].
      rewrite Forall_forall in Hall. apply Hall, Hx.
Qed.

(** The entries whose value carries its own key, as [makeKFIdPair] stores
    them. *)
Lemma insert_keyed {V} (key : V -> N) (k : N) (v : V) (m : t V) :
  k = key v ->
  Forall (fun e => fst e = key (snd e)) m ->
  Forall (fun e => fst e = key (snd e)) (insert k v m).
Proof.
  intros Hk. induction m as [|[k0 v0] rest IH]; simpl; intros Hm.
  - repeat constructor. assumption.
  - apply Forall_cons in Hm as [H0 Hrest].
    destruct (N.compare_spec k k0); repeat constructor; auto.
Qed.

End OMapFacts.

(** ** Sorting the maps and indexing the keyframes *)
Section ResolutionFacts.

Context `{G : Geometry}.

Lemma sortInsert_perm (m : Map) (l : list Map) :
  Permutation (sortInsert m l) (m :: l).
Proof.
  induction l as [|x rest IH]; simpl.
  - reflexivity.
  - destruct (compareInitKFid x m).
    + rewrite IH. apply perm_swap.
    + reflexivity.
Qed.

Lemma sortMaps_perm (l : list Map) : Permutation (sortMaps l) l.
Proof.
  induction l as [|m rest IH]; simpl.
  - reflexivity.
  - rewrite sortInsert_perm. constructor. exact IH.
Qed.

Lemma sortInsert_sorted (m : Map) (l : list Map) :
  StronglySorted le_init l -> StronglySorted le_init (sortInsert m l).
Proof.
  induction l as [|x rest IH]; simpl; intros Hs.
  - repeat constructor.
  - apply StronglySorted_inv in Hs as [Hrest Hall].
    unfold compareInitKFid.
    destruct (N.ltb_spec (GetInitKFid x) (GetInitKFid m)) as [Hlt|Hge].
    + constructor; [apply IH; exact Hrest|].
      rewrite (sortInsert_perm m rest).
      constructor; [unfold le_init; lia|exact Hall].
    + constructor; [constructor; assumption|].
      constructor; [exact Hge|].
      eapply Forall_impl; [exact Hall|].
      unfold le_init. simpl. intros; lia.
Qed.

Lemma sortMaps_sorted (l : list Map) : StronglySorted le_init (sortMaps l).
Proof.
  induction l as [|m rest IH]; simpl.
  - constructor.
  - apply sortInsert_sorted, IH.
Qed.

Lemma index_ok_empty : index_ok OMap.empty.
Proof. split; constructor. Qed.

Lemma index_ok_insert (kf : KeyFrame) (idx : OMap.t KeyFrame) :
  index_ok idx -> index_ok (OMap.insert (mnId kf) kf idx).
Proof.
  intros [Hs Hk]. split.
  - apply OMapFacts.insert_sorted, Hs.
  - apply OMapFacts.insert_keyed; [reflexivity|exact Hk].
Qed.

Lemma index_ok_makeKFIdPair (mapsList : list Map) :
  index_ok (makeKFIdPair mapsList).
Proof.
  unfold makeKFIdPair.
  generalize (@OMap.empty KeyFrame) index_ok_empty.
  induction mapsList as [|m rest IH]; simpl; intros idx Hidx.
  - exact Hidx.
  - apply IH. clear IH.
    revert idx Hidx.
    induction (GetAllKeyFrames m) as [|kf kfs IHk]; simpl; intros idx Hidx.
    + exact Hidx.
    + apply IHk, index_ok_insert, Hidx.
Qed.

(** A strictly ascending list has no duplicate. *)
Lemma ascending_NoDup (l : list N) : StronglySorted N.lt l -> NoDup l.
Proof.
  induction 1 as [|x l Hs IH Hall]; constructor; [|exact IH].
  intros Hin. rewrite Forall_forall in Hall.
  specialize (Hall _ Hin). lia.
Qed.

End ResolutionFacts.

(** ** What the member functions leave unchanged *)
Section FrameFacts.

Context `{G : Geometry}.

(** [calculateReferencePoses] writes the table and the index, nothing else. *)
Lemma calculateReferencePoses_inv (mem : AtlasPtr -> Atlas) (s s1 : State) :
  calculateReferencePoses mem s = Returns s1 ->
  exists a tbl,
    orbAtlas_ s = Some a /\
    resolveLoop s (makeKFIdPair (sortMaps (GetAllMaps (mem a))))
                (sortMaps (GetAllMaps (mem a))) ∅ = Returns tbl /\
    s1 = set_mapReferencePoses tbl
           (set_allKFs (makeKFIdPair (sortMaps (GetAllMaps (mem a)))) s).
Proof.
  unfold calculateReferencePoses.
  destruct (orbAtlas_ s) as [a|]; [|discriminate].
  destruct (resolveLoop _ _ _ _) as [tbl|] eqn:Hloop; simpl; [|discriminate].
  intros [= <-]. exists a, tbl. auto.
Qed.

Lemma correctTrackedPose_inv (mem : AtlasPtr -> Atlas) (Tcw : SE3) (s s1 : State) :
  correctTrackedPose mem Tcw s = Returns s1 ->
  exists a,
    orbAtlas_ s = Some a /\
    s1 = set_latestTrackedPose
           (transformPoseWithReference
              (fst (refPoseAt (GetCurrentMap (mem a)) (mapReferencePoses_ s))) Tcw)
           (set_mapReferencePoses
              (snd (refPoseAt (GetCurrentMap (mem a)) (mapReferencePoses_ s))) s).
Proof.
  unfold correctTrackedPose.
  destruct (orbAtlas_ s) as [a|]; [|discriminate].
  destruct (refPoseAt _ _) as [ref tbl] eqn:E. intros [= <-]. exists a.
  rewrite E. split; reflexivity.
Qed.

(** The three ways [afterTrack] ends. *)
Lemma afterTrack_inv (eng : EngineStep) (flag : bool) (v : list ImuPoint)
      (call : TrackCall) (s s' : State) (r : TrackResult) :
  afterTrack eng flag v call s = Returns (r, s') ->
  tr_Tcw r = Some (eng_TrackRGBD eng) /\ tr_vImuMeas r = v /\ tr_call r = Some call /\
  ((tr_ret r = false /\ s' = s /\
    (eng_mergeDetected eng = true \/ eng_GetTrackingState eng <> 2%Z)) \/
   (tr_ret r = true /\ eng_mergeDetected eng = false /\ eng_GetTrackingState eng = 2%Z /\
    exists s1 s2,
      calculateReferencePoses (eng_mem eng) s = Returns s1 /\
      correctTrackedPose (eng_mem eng) (eng_TrackRGBD eng) s1 = Returns s2 /\
      s' = if flag then set_hasTracked true s2 else s2)).
Proof.
  unfold afterTrack.
  destruct (eng_mergeDetected eng).
  - intros [= <- <-]. simpl. auto 10.
  - destruct (Z.eqb_spec (eng_GetTrackingState eng) 2) as [H2|H2].
    + destruct (calculateReferencePoses _ s) as [s1|] eqn:H1; simpl; [|discriminate].
      destruct (correctTrackedPose _ _ s1) as [s2|] eqn:Hc; simpl; [|discriminate].
      intros [= <- <-]. simpl. repeat split; auto.
      right. repeat split; auto. exists s1, s2. auto.
    + intros [= <- <-]. simpl. auto 10.
Qed.

Lemma afterTrack_index (eng : EngineStep) (flag : bool) (v : list ImuPoint)
      (call : TrackCall) (s s' : State) (r : TrackResult) :
  afterTrack eng flag v call s = Returns (r, s') ->
  index_ok (allKFs_ s) -> index_ok (allKFs_ s').
Proof.
  intros H Hok. apply afterTrack_inv in H as (_ & _ & _ & [(_ & -> & _)|H]).
  - exact Hok.
  - destruct H as (_ & _ & _ & s1 & s2 & H1 & H2 & ->).
    apply calculateReferencePoses_inv in H1 as (a & tbl & _ & _ & ->).
    apply correctTrackedPose_inv in H2 as (a' & _ & ->).
    destruct flag; simpl; apply index_ok_makeKFIdPair.
Qed.

(** What [trackRGBDi] does once both images are decoded. *)
Lemma trackRGBDi_decoded (eng : EngineStep) (msgRGB msgD : ImageMsg) (s : State)
      (cvRGB cvD : CvImage) :
  toCvShare (img_data msgRGB) = Some cvRGB ->
  toCvShare (img_data msgD) = Some cvD ->
  let tFrame := std_min (stampToSec (img_stamp msgRGB)) (stampToSec (img_stamp msgD)) in
  let drained := drainImu tFrame (imuBuf_ s) [] in
  let s0 := set_imuBuf (snd drained) (set_orbAtlas (Some (eng_GetAtlas eng)) s) in
  trackRGBDi eng msgRGB msgD s =
    if (0 <? length (snd drained))%nat then
      afterTrack eng true (fst drained)
        (mkTrackCall cvRGB cvD (stampToSec (img_stamp msgRGB)) (fst drained)) s0
    else Returns (mkTrackResult false None (fst drained) None, s0).
Proof.
  intros HRGB HD. unfold trackRGBDi. rewrite HRGB, HD. simpl.
  destruct (drainImu _ _ _) as [v buf]. reflexivity.
Qed.

Lemma trackRGBDi_index (eng : EngineStep) (msgRGB msgD : ImageMsg)
      (s s' : State) (r : TrackResult) :
  trackRGBDi eng msgRGB msgD s = Returns (r, s') ->
  index_ok (allKFs_ s) -> index_ok (allKFs_ s').
Proof.
  destruct (toCvShare (img_data msgRGB)) as [cvRGB|] eqn:HRGB;
    [destruct (toCvShare (img_data msgD)) as [cvD|] eqn:HD|].
  - rewrite (trackRGBDi_decoded eng msgRGB msgD s cvRGB cvD HRGB HD).
    destruct (0 <? _)%nat.
    + intros H Hok. eapply afterTrack_index; [exact H|exact Hok].
    + intros [= <- <-]. auto.
  - unfold trackRGBDi. rewrite HRGB, HD. intros [= <- <-]. auto.
  - unfold trackRGBDi. rewrite HRGB. intros [= <- <-]. auto.
Qed.

Lemma trackRGBD_index (eng : EngineStep) (msgRGB msgD : ImageMsg)
      (s s' : State) (r : TrackResult) :
  trackRGBD eng msgRGB msgD s = Returns (r, s') ->
  index_ok (allKFs_ s) -> index_ok (allKFs_ s').
Proof.
  unfold trackRGBD.
  destruct (toCvShare (img_data msgRGB)); [|intros [= <- <-]; auto].
  destruct (toCvShare (img_data msgD)); [|intros [= <- <-]; auto].
  intros H Hok. eapply afterTrack_index; [exact H|exact Hok].
Qed.

(** Reading the table never changes what later reads see. *)
Lemma refPoseAt_fst (k : MapPtr) (tbl : gmap MapPtr Affine) :
  (refPoseAt k tbl).1 = refOrDefault tbl k.
Proof.
  unfold refPoseAt, refOrDefault. destruct (tbl !! k); reflexivity.
Qed.

Lemma refPoseAt_snd (k k' : MapPtr) (tbl : gmap MapPtr Affine) :
  refOrDefault (refPoseAt k tbl).2 k' = refOrDefault tbl k'.
Proof.
  unfold refPoseAt, refOrDefault. destruct (tbl !! k) eqn:E; simpl; [reflexivity|].
  destruct (decide (k = k')) as [<-|Hne].
  - rewrite lookup_insert_eq, E. reflexivity.
  - rewrite lookup_insert_ne by exact Hne. reflexivity.
Qed.

(** Pushing keyframes on a graph appends the entry and the identifier of
    each, in the order of the keyframes. *)
Lemma pushKeyFrame_fold {X} (f : X -> KeyFrame) (frame : string) (l : list X)
      (graph : MapGraph) (tbl : gmap MapPtr Affine) :
  let r := fold_left (fun acc x => pushKeyFrame frame (f x) acc) l (graph, tbl) in
  poses r.1 = poses graph ++ map (fun x => stampedPose frame tbl (f x)) l /\
  poses_id r.1 = poses_id graph ++ map (fun x => mnId (f x)) l /\
  forall k, refOrDefault r.2 k = refOrDefault tbl k.
Proof.
  revert graph tbl.
  induction l as [|x rest IH]; simpl; intros graph tbl.
  - rewrite !app_nil_r. auto.
  - pose proof (refPoseAt_fst (GetMap (f x)) tbl) as Hfst.
    pose proof (fun k => refPoseAt_snd (GetMap (f x)) k tbl) as Hsnd.
    destruct (refPoseAt (GetMap (f x)) tbl) as [ref tbl1]. simpl in Hfst, Hsnd.
    match goal with
    | |- context [fold_left _ rest (?g, tbl1)] =>
        destruct (IH g tbl1) as (Hp & Hid & Htbl)
    end.
    rewrite Hp, Hid. simpl. rewrite <- !app_assoc. simpl. split_and!.
    + f_equal. f_equal; [unfold stampedPose; rewrite Hfst; reflexivity|].
      apply map_ext. intros y. unfold stampedPose. rewrite Hsnd. reflexivity.
    + reflexivity.
    + intros k. rewrite Htbl. apply Hsnd.
Qed.

Lemma getOptimizedPoseGraph_index (mem : AtlasPtr -> Atlas) (graph graph' : MapGraph)
      (only : bool) (s s' : State) :
  getOptimizedPoseGraph mem graph only s = Returns (graph', s') ->
  allKFs_ s' = allKFs_ s.
Proof.
  unfold getOptimizedPoseGraph.
  destruct only; simpl.
  - destruct (orbAtlas_ s); [|discriminate].
    destruct (fold_left _ _ _) as [g1 t1]. intros [= <- <-]. reflexivity.
  - destruct (fold_left _ _ _) as [g1 t1]. intros [= <- <-]. reflexivity.
Qed.

Lemma getCurrentMapPoints_index (mem : AtlasPtr -> Atlas) (cloud : PointCloud2)
      (s s' : State) :
  getCurrentMapPoints mem s = Returns (cloud, s') -> allKFs_ s' = allKFs_ s.
Proof.
  unfold getCurrentMapPoints.
  destruct (orbAtlas_ s); [|discriminate].
  destruct (ofold _ _ _) as [[pts tbl]|]; simpl; [|discriminate].
  intros [= <- <-]. reflexivity.
Qed.

Lemma mapDataToMsg_index (mem : AtlasPtr -> Atlas) (msg msg' : MapData)
      (only points : bool) (ids : list Z) (s s' : State) :
  mapDataToMsg mem msg only points ids s = Returns (msg', s') ->
  allKFs_ s' = allKFs_ s.
Proof.
  unfold mapDataToMsg.
  destruct (getOptimizedPoseGraph mem _ only s) as [[g s1]|] eqn:Hg; simpl;
    [|discriminate].
  apply getOptimizedPoseGraph_index in Hg.
  destruct points.
  - destruct (fold_left _ _ _) as [nodes tbl]. intros [= <- <-]. exact Hg.
  - intros [= <- <-]. exact Hg.
Qed.

(** In every reachable state the index is ordered and keyed by identifier. *)
Lemma reachable_index_ok (s : State) : reachable s -> index_ok (allKFs_ s).
Proof.
  induction 1 as [s H| | |
                  |s mem graph only graph' s' _ IH Hg
                  |s mem s' _ IH Hc
                  |s mem Tcw s' _ IH Hc
                  |s mem cloud s' _ IH Hc
                  |s mem msg only points ids msg' s' _ IH Hm].
  - rewrite H. apply index_ok_empty.
  - assumption.
  - eapply trackRGBDi_index; eassumption.
  - eapply trackRGBD_index; eassumption.
  - rewrite (getOptimizedPoseGraph_index _ _ _ _ _ _ Hg). exact IH.
  - apply calculateReferencePoses_inv in Hc as (a & tbl & _ & _ & ->).
    apply index_ok_makeKFIdPair.
  - apply correctTrackedPose_inv in Hc as (a & _ & ->). exact IH.
  - rewrite (getCurrentMapPoints_index _ _ _ _ Hc). exact IH.
  - rewrite (mapDataToMsg_index _ _ _ _ _ _ _ _ Hm). exact IH.
Qed.

End FrameFacts.

(** ** The inertial buffer *)
Section BufferFacts.

Context `{G : Geometry}.

(** [std_min a b] is below both and is a lower bound's upper limit. *)
Lemma std_min_glb (x a b : Q) :
  (x <= std_min a b)%Q <-> (x <= a)%Q /\ (x <= b)%Q.
Proof.
  unfold std_min. destruct (Qle_bool a b) eqn:E.
  - apply Qle_bool_iff in E. split.
    + intros Hx. split; [exact Hx|]. eapply Qle_trans; eassumption.
    + intros [Hx _]. exact Hx.
  - assert (Hlt : (b < a)%Q).
    { apply Qnot_le_lt. intros Hle. apply Qle_bool_iff in Hle. congruence. }
    split.
    + intros Hx. split; [|exact Hx].
      eapply Qle_trans; [exact Hx|]. apply Qlt_le_weak, Hlt.
    + intros [_ Hx]. exact Hx.
Qed.

(** The loop takes the longest prefix of the buffer whose stamps are at most
    [tFrame], appends it to [vImuMeas] in order, and leaves the rest. *)
Lemma drainImu_spec (tFrame : Q) (imuBuf : list ImuMsg) (vImuMeas : list ImuPoint) :
  exists taken,
    imuBuf = taken ++ snd (drainImu tFrame imuBuf vImuMeas) /\
    fst (drainImu tFrame imuBuf vImuMeas) = vImuMeas ++ map imuPoint taken /\
    Forall (fun m => (stampToSec (imu_stamp m) <= tFrame)%Q) taken /\
    (forall m rest, snd (drainImu tFrame imuBuf vImuMeas) = m :: rest ->
                    ~ (stampToSec (imu_stamp m) <= tFrame)%Q).
Proof.
  revert vImuMeas.
  induction imuBuf as [|front rest IH]; simpl; intros vImuMeas.
  - exists []. simpl. rewrite app_nil_r. repeat split; [constructor|discriminate].
  - destruct (Qle_bool (stampToSec (imu_stamp front)) tFrame) eqn:E.
    + destruct (IH (vImuMeas ++ [imuPoint front])) as (taken & Hbuf & Hv & Hall & Hhd).
      exists (front :: taken). simpl. repeat split.
      * f_equal. exact Hbuf.
      * rewrite Hv, <- app_assoc. reflexivity.
      * constructor; [apply Qle_bool_iff, E|exact Hall].
      * exact Hhd.
    + exists []. simpl. rewrite app_nil_r. repeat split; [constructor|].
      intros m rest' [= <- <-] Hle. apply Qle_bool_iff in Hle. congruence.
Qed.

(** A call of [trackRGBDi] that returns took a prefix of the buffer: nothing
    when an image could not be decoded, the drained prefix otherwise. *)
Lemma trackRGBDi_buffer (eng : EngineStep) (msgRGB msgD : ImageMsg)
      (s s' : State) (r : TrackResult) :
  trackRGBDi eng msgRGB msgD s = Returns (r, s') ->
  exists taken,
    imuBuf_ s = taken ++ imuBuf_ s' /\
    tr_vImuMeas r = map imuPoint taken /\
    Forall (fun m => (stampToSec (imu_stamp m) <= stampToSec (img_stamp msgRGB))%Q /\
                     (stampToSec (imu_stamp m) <= stampToSec (img_stamp msgD))%Q) taken /\
    (forall c, tr_call r = Some c -> call_imu c = tr_vImuMeas r) /\
    (is_Some (tr_call r) <->
       is_Some (toCvShare (img_data msgRGB)) /\ is_Some (toCvShare (img_data msgD)) /\
       imuBuf_ s' <> []) /\
    (is_Some (toCvShare (img_data msgRGB)) -> is_Some (toCvShare (img_data msgD)) ->
     forall m rest, imuBuf_ s' = m :: rest ->
       ~ ((stampToSec (imu_stamp m) <= stampToSec (img_stamp msgRGB))%Q /\
          (stampToSec (imu_stamp m) <= stampToSec (img_stamp msgD))%Q)).
Proof.
  destruct (toCvShare (img_data msgRGB)) as [cvRGB|] eqn:HRGB;
    [destruct (toCvShare (img_data msgD)) as [cvD|] eqn:HD|].
  - rewrite (trackRGBDi_decoded eng msgRGB msgD s cvRGB cvD HRGB HD).
    set (tFrame := std_min _ _).
    destruct (drainImu_spec tFrame (imuBuf_ s) []) as (taken & Hbuf & Hv & Hall & Hhd).
    simpl in Hv.
    assert (Hbuf' : forall st : State,
               imuBuf_ st = snd (drainImu tFrame (imuBuf_ s) []) ->
               imuBuf_ s = taken ++ imuBuf_ st) by (intros st ->; exact Hbuf).
    assert (Hall' : Forall (fun m =>
               (stampToSec (imu_stamp m) <= stampToSec (img_stamp msgRGB))%Q /\
               (stampToSec (imu_stamp m) <= stampToSec (img_stamp msgD))%Q) taken).
    { eapply Forall_impl; [exact Hall|]. intros m Hm. apply std_min_glb, Hm. }
    assert (Hhd' : forall st : State,
               imuBuf_ st = snd (drainImu tFrame (imuBuf_ s) []) ->
               forall m rest, imuBuf_ st = m :: rest ->
               ~ ((stampToSec (imu_stamp m) <= stampToSec (img_stamp msgRGB))%Q /\
                  (stampToSec (imu_stamp m) <= stampToSec (img_stamp msgD))%Q)).
    { intros st -> m rest Hm Hle. apply (Hhd m rest Hm), std_min_glb, Hle. }
    destruct (0 <? length (snd (drainImu tFrame (imuBuf_ s) [])))%nat eqn:Hlen.
    + intros H. apply afterTrack_inv in H as (_ & Hvr & Hc & Hs).
      assert (Hs' : imuBuf_ s' = snd (drainImu tFrame (imuBuf_ s) [])).
      { destruct Hs as [(_ & -> & _)|(_ & _ & _ & s1 & s2 & H1 & H2 & ->)];
          [reflexivity|].
        apply calculateReferencePoses_inv in H1 as (a & tbl & _ & _ & ->).
        apply correctTrackedPose_inv in H2 as (a' & _ & ->). reflexivity. }
      exists taken. split_and!.
      * apply Hbuf', Hs'.
      * congruence.
      * exact Hall'.
      * intros c Hc'. rewrite Hc in Hc'. injection Hc' as <-. simpl. congruence.
      * split; [|rewrite Hc; eauto].
        intros _. split_and!; eauto.
        rewrite Hs'. intros E. rewrite E in Hlen. discriminate.
      * intros _ _. apply Hhd', Hs'.
    + intros [= <- <-]. simpl. exists taken. split_and!.
      * exact Hbuf.
      * exact Hv.
      * exact Hall'.
      * intros c [=].
      * split; [intros [c [=]]|].
        intros (_ & _ & Hne). exfalso. apply Hne.
        destruct (snd (drainImu tFrame (imuBuf_ s) [])); [reflexivity|discriminate].
      * intros _ _ m rest Hm Hle. apply (Hhd m rest Hm), std_min_glb, Hle.
  - unfold trackRGBDi. rewrite HRGB, HD. intros [= <- <-]. simpl.
    exists []. split_and!; auto.
    + intros c [=].
    + split; [intros [c [=]]|intros (_ & [c [=]] & _)].
    + intros _ [c [=]].
  - unfold trackRGBDi. rewrite HRGB. intros [= <- <-]. simpl.
    exists []. split_and!; auto.
    + intros c [=].
    + split; [intros [c [=]]|intros ([c [=]] & _)].
    + intros [c [=]].
Qed.

End BufferFacts.

(** * The tracking entry points *)
Section Tracking.

Context `{G : Geometry}.

Lemma afterTrack_merge (eng : EngineStep) (flag : bool) (v : list ImuPoint)
      (call : TrackCall) (s : State) :
  eng_mergeDetected eng = true ->
  afterTrack eng flag v call s =
    Returns (mkTrackResult false (Some (eng_TrackRGBD eng)) v (Some call), s).
Proof. intros H. unfold afterTrack. rewrite H. reflexivity. Qed.

(** [trackRGBD] never writes [hasTracked_]. *)
Lemma trackRGBD_hasTracked (eng : EngineStep) (msgRGB msgD : ImageMsg)
      (s s' : State) (r : TrackResult) :
  trackRGBD eng msgRGB msgD s = Returns (r, s') -> hasTracked_ s' = hasTracked_ s.
Proof.
  unfold trackRGBD.
  destruct (toCvShare (img_data msgRGB)); [|intros [= <- <-]; reflexivity].
  destruct (toCvShare (img_data msgD)); [|intros [= <- <-]; reflexivity].
  intros H. apply afterTrack_inv in H as (_ & _ & _ & [(_ & -> & _)|H]);
    [reflexivity|].
  destruct H as (_ & _ & _ & s1 & s2 & H1 & H2 & ->).
  apply calculateReferencePoses_inv in H1 as (a & tbl & _ & _ & ->).
  apply correctTrackedPose_inv in H2 as (a' & _ & ->). reflexivity.
Qed.

(** [trackRGBDi] sets [hasTracked_] whenever it returns [true]. *)
Lemma trackRGBDi_hasTracked (eng : EngineStep) (msgRGB msgD : ImageMsg)
      (s s' : State) (r : TrackResult) :
  trackRGBDi eng msgRGB msgD s = Returns (r, s') ->
  tr_ret r = true -> hasTracked_ s' = true.
Proof.
  destruct (toCvShare (img_data msgRGB)) as [cvRGB|] eqn:HRGB;
    [destruct (toCvShare (img_data msgD)) as [cvD|] eqn:HD|].
  - rewrite (trackRGBDi_decoded eng msgRGB msgD s cvRGB cvD HRGB HD).
    destruct (0 <? _)%nat; [|intros [= <- <-]; discriminate].
    intros H. apply afterTrack_inv in H as (_ & _ & _ & [(Hr & _)|H]).
    + congruence.
    + destruct H as (_ & _ & _ & s1 & s2 & _ & _ & ->). reflexivity.
  - unfold trackRGBDi. rewrite HRGB, HD. intros [= <- <-]. discriminate.
  - unfold trackRGBDi. rewrite HRGB. intros [= <- <-]. discriminate.
Qed.

(** What a tracking call does when the engine was called and reports state 2
    with no merge in progress: the reference poses are recomputed on the
    engine's atlas, the returned pose is projected through the reference pose
    of the current map and stored, and the call returns [true]. *)
Lemma afterTrack_tracking_ok (eng : EngineStep) (flag : bool) (v : list ImuPoint)
      (call : TrackCall) (s s' : State) (r : TrackResult) :
  afterTrack eng flag v call s = Returns (r, s') ->
  eng_mergeDetected eng = false ->
  eng_GetTrackingState eng = 2%Z ->
  tr_ret r = true /\
  exists a s1,
    orbAtlas_ s = Some a /\
    calculateReferencePoses (eng_mem eng) s = Returns s1 /\
    allKFs_ s' = allKFs_ s1 /\
    latestTrackedPose_ s' =
      transformPoseWithReference
        (refOrDefault (mapReferencePoses_ s1) (GetCurrentMap (eng_mem eng a)))
        (eng_TrackRGBD eng) /\
    (forall k, refOrDefault (mapReferencePoses_ s') k
               = refOrDefault (mapReferencePoses_ s1) k) /\
    hasTracked_ s' = if flag then true else hasTracked_ s.
Proof.
  intros H Hmerge Hstate.
  apply afterTrack_inv in H as (_ & _ & _ & [(_ & _ & [Hm|Hs])|H]);
    [congruence|congruence|].
  destruct H as (Hret & _ & _ & s1 & s2 & H1 & H2 & ->).
  split; [exact Hret|].
  pose proof H1 as H1'.
  apply calculateReferencePoses_inv in H1' as (a & tbl & Ha & _ & Hs1).
  apply correctTrackedPose_inv in H2 as (a' & Ha' & ->).
  assert (a' = a) as -> by (subst s1; simpl in Ha'; congruence).
  exists a, s1. split_and!; auto.
  - destruct flag; reflexivity.
  - destruct flag; simpl; rewrite refPoseAt_fst; reflexivity.
  - intros k. destruct flag; simpl; apply refPoseAt_snd.
  - destruct flag; simpl; [reflexivity|]. subst s1. reflexivity.
Qed.

(** C6. When the engine reports a merge in progress, either tracking call
    returns failure and leaves the tracked pose, the reference-pose table and
    the [hasTracked_] flag as they were, whatever tracking state the engine
    reports. *)
Theorem merge_gate_keeps_tracked_state (eng : EngineStep) (msgRGB msgD : ImageMsg)
        (s : State) :
  eng_mergeDetected eng = true ->
  (exists r s',
      trackRGBDi eng msgRGB msgD s = Returns (r, s') /\
      tr_ret r = false /\
      latestTrackedPose_ s' = latestTrackedPose_ s /\
      mapReferencePoses_ s' = mapReferencePoses_ s /\
      hasTracked_ s' = hasTracked_ s) /\
  (exists r s',
      trackRGBD eng msgRGB msgD s = Returns (r, s') /\
      tr_ret r = false /\
      latestTrackedPose_ s' = latestTrackedPose_ s /\
      mapReferencePoses_ s' = mapReferencePoses_ s /\
      hasTracked_ s' = hasTracked_ s).
Proof.
  intros Hmerge. split.
  - destruct (toCvShare (img_data msgRGB)) as [cvRGB|] eqn:HRGB;
      [destruct (toCvShare (img_data msgD)) as [cvD|] eqn:HD|].
    + rewrite (trackRGBDi_decoded eng msgRGB msgD s cvRGB cvD HRGB HD).
      destruct (0 <? _)%nat.
      * rewrite afterTrack_merge by exact Hmerge. eexists _, _. split; [reflexivity|].
        simpl. auto.
      * eexists _, _. split; [reflexivity|]. simpl. auto.
    + unfold trackRGBDi. rewrite HRGB, HD. eexists _, _. split; [reflexivity|].
      simpl. auto.
    + unfold trackRGBDi. rewrite HRGB. eexists _, _. split; [reflexivity|].
      simpl. auto.
  - unfold trackRGBD.
    destruct (toCvShare (img_data msgRGB)) as [cvRGB|];
      [destruct (toCvShare (img_data msgD)) as [cvD|]|].
    + rewrite afterTrack_merge by exact Hmerge. eexists _, _. split; [reflexivity|].
      simpl. auto.
    + eexists _, _. split; [reflexivity|]. simpl. auto.
    + eexists _, _. split; [reflexivity|]. simpl. auto.
Qed.

(** C5, amended. When the image or the depth input cannot be decoded, either
    tracking call returns failure without calling the engine.  [trackRGBD]
    leaves the whole state as it was.  [trackRGBDi] leaves the inertial
    buffer, the reference-pose table, the keyframe index, the tracked pose
    and [hasTracked_] as they were; the cached atlas handle, which it
    refreshes before decoding, is the engine's current atlas. *)
Theorem decode_failure_keeps_state (eng : EngineStep) (msgRGB msgD : ImageMsg)
        (s : State) :
  toCvShare (img_data msgRGB) = None \/ toCvShare (img_data msgD) = None ->
  trackRGBD eng msgRGB msgD s = Returns (mkTrackResult false None [] None, s) /\
  exists s',
    trackRGBDi eng msgRGB msgD s = Returns (mkTrackResult false None [] None, s') /\
    imuBuf_ s' = imuBuf_ s /\
    mapReferencePoses_ s' = mapReferencePoses_ s /\
    allKFs_ s' = allKFs_ s /\
    latestTrackedPose_ s' = latestTrackedPose_ s /\
    hasTracked_ s' = hasTracked_ s /\
    orbAtlas_ s' = Some (eng_GetAtlas eng).
Proof.
  intros Hfail. split.
  - unfold trackRGBD.
    destruct (toCvShare (img_data msgRGB)); [|reflexivity].
    destruct (toCvShare (img_data msgD)); [|reflexivity].
    destruct Hfail; discriminate.
  - exists (set_orbAtlas (Some (eng_GetAtlas eng)) s).
    split; [|simpl; auto 10].
    unfold trackRGBDi.
    destruct (toCvShare (img_data msgRGB)); [|reflexivity].
    destruct (toCvShare (img_data msgD)); [|reflexivity].
    destruct Hfail; discriminate.
Qed.

(** C7. In an inertial-mode call that decodes both images, the drain removes
    exactly a prefix of the buffer, in buffer order: every removed sample is
    stamped no later than the image and the depth stamp, the first sample
    left is stamped later than one of them, every sample stamped later than
    one of them is left in the buffer, and the engine, when called, receives
    the removed samples in that order. *)
Theorem trackRGBDi_drains_prefix (eng : EngineStep) (msgRGB msgD : ImageMsg)
        (s s' : State) (r : TrackResult) :
  is_Some (toCvShare (img_data msgRGB)) ->
  is_Some (toCvShare (img_data msgD)) ->
  trackRGBDi eng msgRGB msgD s = Returns (r, s') ->
  let on_time (m : ImuMsg) :=
    (stampToSec (imu_stamp m) <= stampToSec (img_stamp msgRGB))%Q /\
    (stampToSec (imu_stamp m) <= stampToSec (img_stamp msgD))%Q in
  exists taken,
    imuBuf_ s = taken ++ imuBuf_ s' /\
    tr_vImuMeas r = map imuPoint taken /\
    Forall on_time taken /\
    (forall m rest, imuBuf_ s' = m :: rest -> ~ on_time m) /\
    (forall m, m ∈ imuBuf_ s -> ~ on_time m -> m ∈ imuBuf_ s') /\
    (forall c, tr_call r = Some c -> call_imu c = map imuPoint taken).
Proof.
  intros HRGB HD H on_time.
  destruct (trackRGBDi_buffer eng msgRGB msgD s s' r H)
    as (taken & Hbuf & Hv & Hall & Hcall & _ & Hhd).
  exists taken. split_and!.
  - exact Hbuf.
  - exact Hv.
  - exact Hall.
  - apply Hhd; assumption.
  - intros m Hin Hlate. rewrite Hbuf in Hin.
    apply elem_of_app in Hin as [Hin|Hin]; [|exact Hin].
    rewrite Forall_forall in Hall. destruct (Hlate (Hall m Hin)).
  - intros c Hc. rewrite <- Hv. apply Hcall, Hc.
Qed.

(** The engine call of an inertial-mode call carries the frame of that
    call. *)
Lemma trackRGBDi_call_frame (eng : EngineStep) (msgRGB msgD : ImageMsg)
      (s s' : State) (r : TrackResult) (c : TrackCall) :
  trackRGBDi eng msgRGB msgD s = Returns (r, s') ->
  tr_call r = Some c ->
  call_time c = stampToSec (img_stamp msgRGB) /\
  toCvShare (img_data msgRGB) = Some (call_rgb c) /\
  toCvShare (img_data msgD) = Some (call_depth c).
Proof.
  destruct (toCvShare (img_data msgRGB)) as [cvRGB|] eqn:HRGB;
    [destruct (toCvShare (img_data msgD)) as [cvD|] eqn:HD|].
  - rewrite (trackRGBDi_decoded eng msgRGB msgD s cvRGB cvD HRGB HD).
    destruct (0 <? _)%nat.
    + intros H Hc. apply afterTrack_inv in H as (_ & _ & Hcall & _).
      rewrite Hcall in Hc. injection Hc as <-. simpl. auto.
    + intros [= <- <-]. discriminate.
  - unfold trackRGBDi. rewrite HRGB, HD. intros [= <- <-]. discriminate.
  - unfold trackRGBDi. rewrite HRGB. intros [= <- <-]. discriminate.
Qed.

(** One inertial-mode call, as a step on the buffer. *)
Lemma trackRGBDi_frameStep (eng : EngineStep) (msgRGB msgD : ImageMsg)
      (s s' : State) (r : TrackResult) :
  trackRGBDi eng msgRGB msgD s = Returns (r, s') ->
  exists batch, frameStep msgRGB msgD r (imuBuf_ s) batch (imuBuf_ s').
Proof.
  intros H.
  destruct (trackRGBDi_buffer eng msgRGB msgD s s' r H)
    as (taken & Hbuf & Hv & Hall & Hcall & Hiff & Hhd).
  assert (Hnone : ~ decodes msgRGB msgD ->
                  tr_call r = None /\ imuBuf_ s' = imuBuf_ s).
  { unfold decodes. revert H. unfold trackRGBDi.
    destruct (toCvShare (img_data msgRGB)) as [cvRGB|];
      [destruct (toCvShare (img_data msgD)) as [cvD|]|].
    - intros _ Hn. destruct Hn. split; eauto.
    - intros [= <- <-] _. split; reflexivity.
    - intros [= <- <-] _. split; reflexivity. }
  exists taken. unfold frameStep. split_and!.
  - exact Hbuf.
  - exact Hv.
  - exact Hall.
  - intros [HRGB HD]. apply Hhd; assumption.
  - intros Hn. destruct (Hnone Hn) as [_ Hsame].
    rewrite Hsame in Hbuf. apply (app_inv_tail (imuBuf_ s)).
    symmetry. exact Hbuf.
  - intros [HRGB HD] Hne.
    destruct (proj2 Hiff (conj HRGB (conj HD Hne))) as [c Hc].
    exists c. split; [exact Hc|]. split; [rewrite <- Hv; apply Hcall, Hc|].
    apply (trackRGBDi_call_frame eng msgRGB msgD s s' r c H Hc).
  - intros Hn. destruct (tr_call r) as [c|] eqn:Hc; [|reflexivity].
    destruct Hn. destruct (proj1 Hiff (mk_is_Some _ _ eq_refl)) as (HRGB & HD & Hne).
    split; [split|]; assumption.
Qed.

(** The batches of a sequence of steps, followed by what is left, are the
    buffer followed by the arrivals. *)
Lemma bufferSteps_concat (evs : list Event)
      (rs : list (ImageMsg * ImageMsg * TrackResult)) (buf : list ImuMsg)
      (steps : list (list ImuMsg * list ImuMsg)) (final : list ImuMsg) :
  bufferSteps evs rs buf steps final ->
  concat (map fst steps) ++ final = buf ++ arrivals evs.
Proof.
  revert rs buf steps.
  induction evs as [|ev rest IH]; simpl; intros rs buf steps H.
  - destruct H as (_ & -> & ->). simpl. rewrite app_nil_r. reflexivity.
  - destruct ev as [msgIMU|eng msgRGB msgD].
    + apply IH in H. rewrite H, <- app_assoc. reflexivity.
    + destruct rs as [|x rs']; [destruct H|].
      destruct steps as [|[batch kept] steps']; [destruct H|].
      destruct H as (_ & (Hbuf & _) & H). apply IH in H.
      simpl. rewrite <- app_assoc, H, Hbuf, <- app_assoc. reflexivity.
Qed.

(** C2, amended. Along any sequence of inertial messages and inertial-mode
    tracking calls, every call removes a batch from the front of the buffer:
    for a frame whose images both convert, all the samples stamped no later
    than the image and the depth stamp up to the first one stamped later;
    for any other frame, nothing.  The batches, in call order and followed by
    what is left in the buffer, are the samples in arrival order: none is
    removed twice, reordered or duplicated across frames.  The batch of a
    frame is passed to the engine, for that frame and in arrival order,
    exactly when both images convert and the buffer is not empty after the
    drain; otherwise the engine is not called for the frame, and the samples
    removed for it are passed to no frame. *)
Theorem runInertial_consumes_in_order (evs : list Event) (s s' : State)
        (rs : list (ImageMsg * ImageMsg * TrackResult)) :
  runInertial evs s = Returns (rs, s') ->
  exists steps : list (list ImuMsg * list ImuMsg),
    bufferSteps evs rs (imuBuf_ s) steps (imuBuf_ s') /\
    length steps = length rs /\
    concat (map fst steps) ++ imuBuf_ s' = imuBuf_ s ++ arrivals evs.
Proof.
  intros H.
  assert (Hsteps : exists steps, bufferSteps evs rs (imuBuf_ s) steps (imuBuf_ s') /\
                                 length steps = length rs).
  { revert s s' rs H.
    induction evs as [|ev rest IH]; simpl; intros s s' rs H.
    - injection H as <- <-. exists []. auto.
    - destruct ev as [msgIMU|eng msgRGB msgD].
      + apply IH in H as (steps & H & Hlen). exists steps. auto.
      + destruct (trackRGBDi eng msgRGB msgD s) as [[r s1]|] eqn:Ht; simpl in H;
          [|discriminate].
        destruct (runInertial rest s1) as [[rs1 s2]|] eqn:Hr; simpl in H;
          [|discriminate].
        injection H as <- <-.
        apply IH in Hr as (steps & Hr & Hlen).
        destruct (trackRGBDi_frameStep eng msgRGB msgD s s1 r Ht) as (batch & Hstep).
        exists ((batch, imuBuf_ s1) :: steps). simpl. auto. }
  destruct Hsteps as (steps & Hsteps & Hlen).
  exists steps. split_and!; [exact Hsteps|exact Hlen|].
  apply (bufferSteps_concat evs rs). exact Hsteps.
Qed.

End Tracking.

(** * The reference-pose resolution *)
Section Resolution.

Context `{G : Geometry}.


(** A map whose parent keyframe is not indexed stops the loop. *)
Lemma resolveLoop_missing_parent (s : State) (allKFs : OMap.t KeyFrame)
      (mapsList : list Map) (tbl : gmap MapPtr Affine) (m : Map) :
  m ∈ mapsList ->
  GetInitKFid m <> 0 ->
  OMap.find (GetInitKFid m - 1) allKFs = None ->
  resolveLoop s allKFs mapsList tbl = NullDeref.
Proof.
  intros Hin Hnz Hfind. revert tbl.
  induction mapsList as [|x rest IH]; intros tbl.
  - apply elem_of_nil in Hin. destruct Hin.
  - simpl. apply elem_of_cons in Hin as [<-|Hin].
    + unfold resolveMap. apply N.eqb_neq in Hnz. rewrite Hnz, Hfind. reflexivity.
    + destruct (resolveMap s allKFs tbl x); simpl; [apply IH, Hin|reflexivity].
Qed.

(** Resolving one more map, whose pointer is not in the table yet. *)
Lemma resolved_snoc (s : State) (allKFs : OMap.t KeyFrame) (done : list Map)
      (tbl : gmap MapPtr Affine) (m : Map) (v : Affine) :
  resolved s allKFs done tbl ->
  tbl !! mapPtr m = None ->
  (GetInitKFid m = 0 ->
   v = compose (poseOffset s) (se3ToAffine (GetPose (GetOriginKF m)))) ->
  (GetInitKFid m <> 0 ->
   exists kf ref,
     OMap.find (GetInitKFid m - 1) allKFs = Some kf /\
     tbl !! GetMap kf = Some ref /\
     v = compose ref (se3ToAffine (GetPose kf))) ->
  resolved s allKFs (done ++ [m]) (<[mapPtr m := v]> tbl).
Proof.
  intros (Hdom & Hroot & Hchain) Hfresh Hv0 Hv1.
  assert (Hother : forall p, is_Some (tbl !! p) -> mapPtr m <> p).
  { intros p [x Hx] <-. congruence. }
  split_and!.
  - intros p. rewrite lookup_insert_is_Some', Hdom. split.
    + intros [<-|(m' & Hin & Hp)].
      * exists m. split; [|reflexivity]. apply elem_of_app. right. constructor.
      * exists m'. split; [|exact Hp]. apply elem_of_app. left. exact Hin.
    + intros (m' & Hin & Hp). apply elem_of_app in Hin as [Hin|Hin].
      * right. exists m'. auto.
      * apply list_elem_of_singleton in Hin as ->. left. exact Hp.
  - intros m' Hin H0. apply elem_of_app in Hin as [Hin|Hin].
    + rewrite lookup_insert_ne; [apply Hroot; assumption|].
      apply Hother, Hdom. exists m'. auto.
    + apply list_elem_of_singleton in Hin as ->.
      rewrite lookup_insert_eq, (Hv0 H0). reflexivity.
  - intros m' Hin Hnz. apply elem_of_app in Hin as [Hin|Hin].
    + destruct (Hchain m' Hin Hnz) as (kf & ref & Hfind & Href & Hm').
      exists kf, ref. split_and!; [exact Hfind| |].
      * rewrite lookup_insert_ne; [exact Href|]. apply Hother. eauto.
      * rewrite lookup_insert_ne; [exact Hm'|]. apply Hother. eauto.
    + apply list_elem_of_singleton in Hin as ->.
      destruct (Hv1 Hnz) as (kf & ref & Hfind & Href & ->).
      exists kf, ref. split_and!; [exact Hfind| |].
      * rewrite lookup_insert_ne; [exact Href|]. apply Hother. eauto.
      * apply lookup_insert_eq.
Qed.

(** The loop invariant: with the maps of [done] resolved, visiting the maps
    of [todo] in ascending order resolves them all, provided the parent
    keyframe of each is indexed and owned by a map that starts earlier. *)
Lemma resolveLoop_resolved (s : State) (allKFs : OMap.t KeyFrame)
      (todo done : list Map) (tbl : gmap MapPtr Affine) :
  NoDup (map mapPtr (done ++ todo)) ->
  StronglySorted le_init todo ->
  (forall m, m ∈ todo -> GetInitKFid m <> 0 ->
     exists kf owner,
       OMap.find (GetInitKFid m - 1) allKFs = Some kf /\
       owner ∈ done ++ todo /\
       mapPtr owner = GetMap kf /\
       GetInitKFid owner < GetInitKFid m) ->
  resolved s allKFs done tbl ->
  exists tbl',
    resolveLoop s allKFs todo tbl = Returns tbl' /\
    resolved s allKFs (done ++ todo) tbl'.
Proof.
  revert done tbl.
  induction todo as [|m rest IH]; intros done tbl Hnd Hsort Hparent Hres.
  - exists tbl. rewrite app_nil_r. split; [reflexivity|exact Hres].
  - apply StronglySorted_inv in Hsort as [Hsort Hle].
    assert (Hfresh : tbl !! mapPtr m = None).
    { destruct (tbl !! mapPtr m) as [x|] eqn:E; [|reflexivity].
      destruct Hres as (Hdom & _).
      destruct (proj1 (Hdom (mapPtr m)) (mk_is_Some _ _ E)) as (m' & Hin & Hp).
      rewrite map_app in Hnd. apply NoDup_app in Hnd as (_ & Hdisj & _).
      exfalso. apply (Hdisj (mapPtr m)).
      - rewrite <- Hp. apply list_elem_of_fmap_2. exact Hin.
      - simpl. constructor. }
    assert (Hstep : exists v,
               resolveMap s allKFs tbl m = Returns (<[mapPtr m := v]> tbl) /\
               resolved s allKFs (done ++ [m]) (<[mapPtr m := v]> tbl)).
    { unfold resolveMap.
      destruct (N.eqb_spec (GetInitKFid m) 0) as [H0|Hnz].
      - eexists. split; [reflexivity|].
        apply resolved_snoc; auto. intros Hnz. destruct (Hnz H0).
      - destruct (Hparent m ltac:(constructor) Hnz)
          as (kf & owner & Hfind & Hin & Hown & Hlt).
        assert (Hdone : owner ∈ done).
        { apply elem_of_app in Hin as [Hin|Hin]; [exact Hin|].
          apply elem_of_cons in Hin as [->|Hin]; [lia|].
          rewrite Forall_forall in Hle. specialize (Hle _ Hin).
          unfold le_init in Hle. lia. }
        destruct Hres as (Hdom & Hres').
        destruct (proj2 (Hdom (GetMap kf))) as [ref Href]; [eauto|].
        rewrite Hfind. unfold refPoseAt. rewrite Href.
        eexists. split; [reflexivity|].
        apply resolved_snoc; auto.
        + split; assumption.
        + intros H0. destruct (Hnz H0).
        + intros _. exists kf, ref. auto. }
    destruct Hstep as (v & Hmap & Hres1).
    destruct (IH (done ++ [m]) (<[mapPtr m := v]> tbl)) as (tbl' & Hloop & Hres').
    + rewrite <- app_assoc. exact Hnd.
    + exact Hsort.
    + intros m' Hin' Hnz'.
      destruct (Hparent m' ltac:(right; exact Hin') Hnz')
        as (kf & owner & Hfind & Hin & Hown & Hlt).
      exists kf, owner. rewrite <- app_assoc. auto.
    + exact Hres1.
    + exists tbl'. simpl. rewrite Hmap. simpl.
      rewrite <- app_assoc in Hres'. auto.
Qed.

(** With the same transform left by every default construction, the pass is
    [calculateReferencePoses]. *)
Lemma resolveLoopU_default (s : State) (allKFs : OMap.t KeyFrame)
      (mapsList : list Map) (tbl : gmap MapPtr Affine) :
  resolveLoopU (fun _ => affineDefault) s allKFs mapsList tbl =
  resolveLoop s allKFs mapsList tbl.
Proof.
  revert tbl. induction mapsList as [|m rest IH]; intros tbl; [reflexivity|].
  simpl. change (resolveMapU (fun _ => affineDefault) s allKFs tbl m)
    with (resolveMap s allKFs tbl m).
  destruct (resolveMap s allKFs tbl m); simpl; [apply IH|reflexivity].
Qed.

Lemma calculateReferencePosesU_default (mem : AtlasPtr -> Atlas) (s : State) :
  calculateReferencePosesU (fun _ => affineDefault) mem s =
  calculateReferencePoses mem s.
Proof.
  unfold calculateReferencePosesU, calculateReferencePoses.
  destruct (orbAtlas_ s); [|reflexivity].
  rewrite resolveLoopU_default. reflexivity.
Qed.

(** The body of the loop for a map whose parent keyframe belongs to a map
    that has no entry yet: the transform left by the default construction
    is stored for the owner, and composed with the keyframe's pose. *)
Lemma resolveMapU_unresolved_owner (uninit : MapPtr -> Affine) (s : State)
      (allKFs : OMap.t KeyFrame) (tbl : gmap MapPtr Affine) (m : Map)
      (kf : KeyFrame) :
  GetInitKFid m <> 0 ->
  OMap.find (GetInitKFid m - 1) allKFs = Some kf ->
  tbl !! GetMap kf = None ->
  resolveMapU uninit s allKFs tbl m =
    Returns (<[mapPtr m := compose (uninit (GetMap kf)) (se3ToAffine (GetPose kf))]>
               (<[GetMap kf := uninit (GetMap kf)]> tbl)).
Proof.
  intros Hnz Hfind Hnone. unfold resolveMapU, refPoseAtU.
  apply N.eqb_neq in Hnz. rewrite Hnz, Hfind, Hnone. reflexivity.
Qed.

Lemma resolved_nil (s : State) (allKFs : OMap.t KeyFrame) :
  resolved s allKFs [] ∅.
Proof.
  split_and!.
  - intros p. rewrite lookup_empty. split.
    + intros [x [=]].
    + intros (m & Hin & _). apply elem_of_nil in Hin. destruct Hin.
  - intros m Hin. apply elem_of_nil in Hin. destruct Hin.
  - intros m Hin. apply elem_of_nil in Hin. destruct Hin.
Qed.

(** Where the parent keyframe of each map to visit is indexed and owned by a
    map that starts earlier, the loop reads entries that are there: no
    default construction is read, and the loop is the one of
    [calculateReferencePoses]. *)
Lemma resolveLoopU_agrees (uninit : MapPtr -> Affine) (s : State)
      (allKFs : OMap.t KeyFrame) (todo done : list Map)
      (tbl : gmap MapPtr Affine) :
  NoDup (map mapPtr (done ++ todo)) ->
  StronglySorted le_init todo ->
  (forall m, m ∈ todo -> GetInitKFid m <> 0 ->
     exists kf owner,
       OMap.find (GetInitKFid m - 1) allKFs = Some kf /\
       owner ∈ done ++ todo /\
       mapPtr owner = GetMap kf /\
       GetInitKFid owner < GetInitKFid m) ->
  resolved s allKFs done tbl ->
  resolveLoopU uninit s allKFs todo tbl = resolveLoop s allKFs todo tbl.
Proof.
  revert done tbl.
  induction todo as [|m rest IH]; intros done tbl Hnd Hsort Hparent Hres;
    [reflexivity|].
  pose proof Hsort as Hsort0.
  apply StronglySorted_inv in Hsort as [Hsort Hle].
  assert (Hdone : forall owner : Map,
             owner ∈ done ++ m :: rest -> GetInitKFid owner < GetInitKFid m ->
             owner ∈ done).
  { intros owner Hin Hlt.
    apply elem_of_app in Hin as [Hin|Hin]; [exact Hin|].
    apply elem_of_cons in Hin as [->|Hin]; [lia|].
    rewrite Forall_forall in Hle. specialize (Hle _ Hin).
    unfold le_init in Hle. lia. }
  assert (Hsame : resolveMapU uninit s allKFs tbl m = resolveMap s allKFs tbl m).
  { unfold resolveMapU, resolveMap.
    destruct (N.eqb_spec (GetInitKFid m) 0) as [H0|Hnz]; [reflexivity|].
    destruct (Hparent m ltac:(constructor) Hnz)
      as (kf & owner & Hfind & Hin & Hown & Hlt).
    rewrite Hfind. destruct Hres as (Hdom & _).
    destruct (proj2 (Hdom (GetMap kf))) as [ref Href].
    { exists owner. split; [|exact Hown]. apply (Hdone owner Hin Hlt). }
    unfold refPoseAtU, refPoseAt. rewrite Href. reflexivity. }
  simpl. rewrite Hsame.
  destruct (resolveMap s allKFs tbl m) as [tbl1|] eqn:Hmap; simpl; [|reflexivity].
  assert (Hnd1 : NoDup (map mapPtr (done ++ [m]))).
  { replace (done ++ m :: rest) with ((done ++ [m]) ++ rest) in Hnd
      by (rewrite <- app_assoc; reflexivity).
    rewrite map_app in Hnd. apply NoDup_app in Hnd as (Hnd & _). exact Hnd. }
  destruct (resolveLoop_resolved s allKFs [m] done tbl) as (tbl' & Hloop & Hres1).
  - exact Hnd1.
  - constructor; constructor.
  - intros m' Hin' Hnz'. apply list_elem_of_singleton in Hin' as ->.
    destruct (Hparent m ltac:(constructor) Hnz')
      as (kf & owner & Hfind & Hin & Hown & Hlt).
    exists kf, owner. split_and!; auto.
    apply elem_of_app. left. apply (Hdone owner Hin Hlt).
  - exact Hres.
  - simpl in Hloop. rewrite Hmap in Hloop. simpl in Hloop. injection Hloop as <-.
    apply (IH (done ++ [m])).
    + rewrite <- app_assoc. exact Hnd.
    + exact Hsort.
    + intros m' Hin' Hnz'.
      destruct (Hparent m' ltac:(right; exact Hin') Hnz')
        as (kf & owner & Hfind & Hin & Hown & Hlt).
      exists kf, owner. rewrite <- app_assoc. auto.
    + exact Hres1.
Qed.


End Resolution.

(** * Resolution, pose graph and odometry bridge: the main statements *)
Section Statements.

Context `{G : Geometry}.

(** C3. When the parent keyframe (identifier [GetInitKFid - 1]) of a map that
    does not start at keyframe 0 is absent from the keyframe index, the
    resolution pass does not skip that map: it dereferences the null pointer
    that the index lookup yields, and no table is produced. *)
Theorem calculateReferencePoses_missing_parent (mem : AtlasPtr -> Atlas)
        (s : State) (a : AtlasPtr) (m : Map) :
  orbAtlas_ s = Some a ->
  m ∈ GetAllMaps (mem a) ->
  GetInitKFid m <> 0 ->
  OMap.find (GetInitKFid m - 1) (makeKFIdPair (sortMaps (GetAllMaps (mem a)))) = None ->
  calculateReferencePoses mem s = NullDeref.
Proof.
  intros Ha Hin Hnz Hfind. unfold calculateReferencePoses. rewrite Ha.
  rewrite (resolveLoop_missing_parent s _ _ ∅ m); auto.
  rewrite sortMaps_perm. exact Hin.
Qed.

(** On a forest of distinct maps in which the parent keyframe of every map
    that does not start at keyframe 0 is indexed and owned by a map of the
    forest that starts earlier, the pass returns, and what it returns does
    not depend on what the default constructions leave. *)
Lemma calculateReferencePosesU_agrees (uninit : MapPtr -> Affine)
      (mem : AtlasPtr -> Atlas) (s : State) (a : AtlasPtr) :
  orbAtlas_ s = Some a ->
  NoDup (map mapPtr (GetAllMaps (mem a))) ->
  (forall m, m ∈ GetAllMaps (mem a) -> GetInitKFid m <> 0 ->
     exists kf owner,
       OMap.find (GetInitKFid m - 1)
                 (makeKFIdPair (sortMaps (GetAllMaps (mem a)))) = Some kf /\
       owner ∈ GetAllMaps (mem a) /\
       mapPtr owner = GetMap kf /\
       GetInitKFid owner < GetInitKFid m) ->
  calculateReferencePosesU uninit mem s = calculateReferencePoses mem s.
Proof.
  intros Ha Hnd Hparent.
  pose proof (sortMaps_perm (GetAllMaps (mem a))) as Hperm.
  unfold calculateReferencePosesU, calculateReferencePoses. rewrite Ha.
  rewrite (resolveLoopU_agrees uninit s _ _ []); [reflexivity| | | |].
  - simpl. rewrite Hperm. exact Hnd.
  - apply sortMaps_sorted.
  - intros m Hin Hnz. simpl. rewrite Hperm in Hin.
    destruct (Hparent m Hin Hnz) as (kf & owner & Hfind & Hown & Hptr & Hlt).
    exists kf, owner. split_and!; auto.
    apply (elem_of_Permutation_proper _ _ _ Hperm). exact Hown.
  - apply resolved_nil.
Qed.



(** C4, amended. On a forest of distinct maps in which the parent keyframe of
    every map that does not start at keyframe 0 is indexed and is owned by a
    map of the forest that starts at a smaller keyframe identifier, the pass
    returns, whatever the default constructions of the table leave; it
    visits the maps in ascending [GetInitKFid] order, and leaves a table
    with one reference pose per map: the fixed offset composed with the
    origin keyframe's pose for a map that starts at keyframe 0, and for every
    other map the reference pose of the map owning keyframe
    [GetInitKFid - 1] composed with that keyframe's pose. *)
Theorem calculateReferencePosesU_chains (mem : AtlasPtr -> Atlas) (s : State)
        (a : AtlasPtr) :
  orbAtlas_ s = Some a ->
  let forest := GetAllMaps (mem a) in
  let mapsList := sortMaps forest in
  let allKFs := makeKFIdPair mapsList in
  NoDup (map mapPtr forest) ->
  (forall m, m ∈ forest -> GetInitKFid m <> 0 ->
     exists kf owner,
       OMap.find (GetInitKFid m - 1) allKFs = Some kf /\
       owner ∈ forest /\
       mapPtr owner = GetMap kf /\
       GetInitKFid owner < GetInitKFid m) ->
  exists s',
    (forall uninit, calculateReferencePosesU uninit mem s = Returns s') /\
    allKFs_ s' = allKFs /\
    Permutation mapsList forest /\
    StronglySorted le_init mapsList /\
    (forall p, is_Some (mapReferencePoses_ s' !! p) <->
               exists m, m ∈ forest /\ mapPtr m = p) /\
    (forall m, m ∈ forest -> GetInitKFid m = 0 ->
       mapReferencePoses_ s' !! mapPtr m =
         Some (compose (mkAffine (mkVec3 (robotX_ s) (robotY_ s) zero)
                                 (mkQuat one zero zero zero))
                       (se3ToAffine (GetPose (GetOriginKF m))))) /\
    (forall m, m ∈ forest -> GetInitKFid m <> 0 ->
       exists kf ref,
         OMap.find (GetInitKFid m - 1) allKFs = Some kf /\
         mapReferencePoses_ s' !! GetMap kf = Some ref /\
         mapReferencePoses_ s' !! mapPtr m =
           Some (compose ref (se3ToAffine (GetPose kf)))).
Proof.
  intros Ha forest mapsList allKFs Hnd Hparent.
  pose proof (sortMaps_perm forest) as Hperm. fold mapsList in Hperm.
  destruct (resolveLoop_resolved s allKFs mapsList [] ∅) as (tbl & Hloop & Hres).
  - simpl. rewrite Hperm. exact Hnd.
  - apply sortMaps_sorted.
  - intros m Hin Hnz. simpl. rewrite Hperm in Hin.
    destruct (Hparent m Hin Hnz) as (kf & owner & Hfind & Hown & Hptr & Hlt).
    exists kf, owner. rewrite Hperm. auto.
  - apply resolved_nil.
  - simpl in Hres. destruct Hres as (Hdom & Hroot & Hchain).
    exists (set_mapReferencePoses tbl (set_allKFs allKFs s)).
    split_and!.
    + intros uninit.
      rewrite (calculateReferencePosesU_agrees uninit mem s a Ha Hnd Hparent).
      unfold calculateReferencePoses. rewrite Ha.
      fold forest. fold mapsList. fold allKFs. rewrite Hloop. reflexivity.
    + reflexivity.
    + exact Hperm.
    + apply sortMaps_sorted.
    + intros p. simpl. rewrite Hdom.
      split; intros (m & Hin & Hp); exists m; (split; [|exact Hp]).
      * rewrite <- Hperm. exact Hin.
      * rewrite Hperm. exact Hin.
    + intros m Hin. simpl. apply Hroot. rewrite Hperm. exact Hin.
    + intros m Hin. simpl. apply Hchain. rewrite Hperm. exact Hin.
Qed.


(** C10. In every reachable state the all-keyframes pose graph is produced:
    one entry per keyframe of the index, in iteration order, and the
    identifiers pushed beside the poses are the keys of the index in that
    order: strictly ascending, each at most once. *)
Theorem getOptimizedPoseGraph_all_ascending (mem : AtlasPtr -> Atlas)
        (graph : MapGraph) (s : State) :
  reachable s ->
  exists graph' s',
    getOptimizedPoseGraph mem graph false s = Returns (graph', s') /\
    poses graph' =
      poses graph ++
      map (fun cKf => stampedPose (globalFrame_ s) (mapReferencePoses_ s) cKf.2)
          (allKFs_ s) /\
    poses_id graph' = poses_id graph ++ OMap.keys (allKFs_ s) /\
    map mnId (map snd (allKFs_ s)) = OMap.keys (allKFs_ s) /\
    StronglySorted N.lt (OMap.keys (allKFs_ s)) /\
    NoDup (OMap.keys (allKFs_ s)).
Proof.
  intros Hreach. apply reachable_index_ok in Hreach as [Hsorted Hkeyed].
  assert (Hkeys : map (fun x : N * KeyFrame => mnId x.2) (allKFs_ s)
                  = OMap.keys (allKFs_ s)).
  { unfold OMap.keys. apply map_ext_in. intros e He.
    rewrite Forall_forall in Hkeyed. symmetry. apply Hkeyed.
    apply list_elem_of_In. exact He. }
  unfold getOptimizedPoseGraph. simpl.
  destruct (pushKeyFrame_fold snd (globalFrame_ s) (allKFs_ s) graph
                              (mapReferencePoses_ s)) as (Hp & Hid & _).
  destruct (fold_left _ (allKFs_ s) _) as [graph' tbl]. simpl in Hp, Hid.
  exists graph', (set_mapReferencePoses tbl s).
  split_and!.
  - reflexivity.
  - exact Hp.
  - rewrite Hid, Hkeys. reflexivity.
  - rewrite map_map. exact Hkeys.
  - exact Hsorted.
  - apply ascending_NoDup, Hsorted.
Qed.

(** The bridge on a stamp that is a time point and leaves room for the
    timeout: what is written. *)
Lemma getMapToOdomTF_written (msgOdom : Odometry) (tf : TransformStamped)
      (s : State) :
  hasTracked_ s = true ->
  (0 <= sec (odom_stamp msgOdom))%Z ->
  (0 <= nanosec (odom_stamp msgOdom) < 4294967296)%Z ->
  (sec (odom_stamp msgOdom) < 2147483648)%Z ->
  exists stamp,
    getMapToOdomTF msgOdom tf s =
      Normal
        (mkTransformStamped
           stamp (globalFrame_ s) (odomFrame_ s)
           (position (toMsg (compose (latestTrackedPose_ s)
                                     (inverse (mkAffine (odom_position msgOdom)
                                                        (odom_orientation msgOdom))))))
           (orientation (toMsg (compose (latestTrackedPose_ s)
                                        (inverse (mkAffine (odom_position msgOdom)
                                                           (odom_orientation msgOdom))))))) /\
    stamp = rclcppTimeToMsg (rclcppTime (odom_stamp msgOdom) + 500000000).
Proof.
  intros Ht Hsec Hns Hmax. unfold getMapToOdomTF. rewrite Ht.
  unfold rclcppTimeFromMsg.
  destruct (Z.ltb_spec (sec (odom_stamp msgOdom)) 0) as [Hneg|_]; [lia|].
  unfold rclcppTimePlus, transformTimeout_.
  destruct (Z.ltb_spec 9223372036854775807
                       (rclcppTime (odom_stamp msgOdom) + 500000000)) as [Hov|_].
  { unfold rclcppTime in Hov. lia. }
  eexists. split; [|reflexivity].
  destruct (toMsg _) as [[x y z] q]. reflexivity.
Qed.

(** The stamp written for a time that fits: the time in seconds and
    nanoseconds below one second. *)
Lemma rclcppTimeToMsg_fits (ns : Z) :
  (0 <= ns < 2147483648 * 1000000000)%Z ->
  rclcppTimeToMsg ns = mkStamp (ns / 1000000000) (ns mod 1000000000).
Proof.
  intros Hns. unfold rclcppTimeToMsg.
  rewrite Z.quot_div_nonneg, Z.rem_mod_nonneg by lia.
  pose proof (Z.mod_pos_bound ns 1000000000 ltac:(lia)) as Hmod.
  destruct (Z.leb_spec 0 (ns mod 1000000000)) as [_|Hneg]; [|lia].
  f_equal. unfold int32.
  assert (Hq : (0 <= ns / 1000000000 < 2147483648)%Z).
  { split; [apply Z.div_pos; lia|apply Z.div_lt_upper_bound; lia]. }
  rewrite Z.mod_small by lia. lia.
Qed.

(** C8, amended. Before anything was tracked [getMapToOdomTF] leaves the
    caller's transform untouched.  Afterwards, an odometry stamp with
    negative seconds is refused by the time library before anything is
    written.  For a stamp that is a time point and stays below 2^31 seconds
    with the timeout added, the transform carries the tracked pose composed
    with the inverse of the odometry pose, the odometry time plus half a
    second as seconds and nanoseconds below one second, the global frame as
    frame and the odometry frame as child frame; it is computed from the
    state and the odometry message alone, whatever the transform held
    before. *)
Theorem getMapToOdomTF_correct (msgOdom : Odometry) (tf : TransformStamped)
        (s : State) :
  let t := rclcppTime (odom_stamp msgOdom) in
  (hasTracked_ s = false -> getMapToOdomTF msgOdom tf s = Normal tf) /\
  (hasTracked_ s = true -> (sec (odom_stamp msgOdom) < 0)%Z ->
   getMapToOdomTF msgOdom tf s = Raised RuntimeError) /\
  (hasTracked_ s = true ->
   (0 <= sec (odom_stamp msgOdom))%Z ->
   (0 <= nanosec (odom_stamp msgOdom) < 4294967296)%Z ->
   (t + 500000000 < 2147483648 * 1000000000)%Z ->
   exists out,
     getMapToOdomTF msgOdom tf s = Normal out /\
     mkPoseMsg (tf_translation out) (tf_rotation out) =
       toMsg (compose (latestTrackedPose_ s)
                      (inverse (mkAffine (odom_position msgOdom)
                                         (odom_orientation msgOdom)))) /\
     tf_stamp out =
       mkStamp ((t + 500000000) / 1000000000) ((t + 500000000) mod 1000000000) /\
     rclcppTime (tf_stamp out) = (t + 500000000)%Z /\
     (0 <= nanosec (tf_stamp out) < 1000000000)%Z /\
     tf_frame_id out = globalFrame_ s /\
     tf_child_frame_id out = odomFrame_ s /\
     forall tf0, getMapToOdomTF msgOdom tf0 s = Normal out).
Proof.
  intros t. split_and!.
  - intros Ht. unfold getMapToOdomTF. rewrite Ht. reflexivity.
  - intros Ht Hneg. unfold getMapToOdomTF, rclcppTimeFromMsg. rewrite Ht.
    destruct (Z.ltb_spec (sec (odom_stamp msgOdom)) 0); [reflexivity|lia].
  - intros Ht Hsec Hns Hfit.
    assert (Hmax : (sec (odom_stamp msgOdom) < 2147483648)%Z).
    { unfold t, rclcppTime in Hfit. lia. }
    assert (Hrange : (0 <= t + 500000000 < 2147483648 * 1000000000)%Z).
    { unfold t, rclcppTime in *. lia. }
    destruct (getMapToOdomTF_written msgOdom tf s Ht Hsec Hns Hmax)
      as (stamp & Hout & Hstamp).
    fold t in Hstamp. rewrite (rclcppTimeToMsg_fits _ Hrange) in Hstamp.
    pose proof (Z.mod_pos_bound (t + 500000000) 1000000000 ltac:(lia)) as Hmod.
    pose proof (Z.div_mod (t + 500000000) 1000000000 ltac:(lia)) as Hdiv.
    eexists. split; [exact Hout|]. simpl. subst stamp. split_and!.
    + destruct (toMsg _) as [pos q]. reflexivity.
    + reflexivity.
    + unfold rclcppTime. simpl. lia.
    + simpl. lia.
    + simpl. lia.
    + reflexivity.
    + reflexivity.
    + intros tf0.
      destruct (getMapToOdomTF_written msgOdom tf0 s Ht Hsec Hns Hmax)
        as (stamp0 & Hout0 & Hstamp0).
      fold t in Hstamp0. rewrite (rclcppTimeToMsg_fits _ Hrange) in Hstamp0.
      rewrite Hout0, Hstamp0. reflexivity.
Qed.

End Statements.

(** * The code on concrete inputs *)
Module Runs.

Import Demo.
#[local] Existing Instance translations.

(** The spec's draining example: stamps 1.0, 1.2, 1.5, 2.0 and an image pair
    at 1.6: the first three samples go to the engine, the fourth stays. *)
Example drain_example :
  exists r s',
    trackRGBDi (tracking atlasAB) (imageAt 1600 true) (imageAt 1600 true) buffered
      = Returns (r, s') /\
    tr_vImuMeas r = map imuPoint [imuAt 1000; imuAt 1200; imuAt 1500] /\
    (exists c, tr_call r = Some c /\
               call_imu c = map imuPoint [imuAt 1000; imuAt 1200; imuAt 1500]) /\
    imuBuf_ s' = [imuAt 2000].
Proof.
  eexists _, _. split; [reflexivity|].
  split; [reflexivity|]. split; [|reflexivity].
  eexists. split; reflexivity.
Qed.

Lemma trackRGBDi_drains_prefix_witness :
  exists r s' taken,
    trackRGBDi (tracking atlasAB) (imageAt 1600 true) (imageAt 1600 true) buffered
      = Returns (r, s') /\
    imuBuf_ buffered = taken ++ imuBuf_ s' /\
    tr_vImuMeas r = map imuPoint taken.
Proof.
  destruct (trackRGBDi (tracking atlasAB) (imageAt 1600 true) (imageAt 1600 true)
                       buffered) as [[r s']|] eqn:E; [|discriminate E].
  destruct (trackRGBDi_drains_prefix
              (tracking atlasAB) (imageAt 1600 true) (imageAt 1600 true) buffered s' r
              (mk_is_Some (Some tt) tt eq_refl) (mk_is_Some (Some tt) tt eq_refl) E)
    as (taken & Hbuf & Hv & _).
  exists r, s', taken. auto.
Defined.

(** [primed] is [fresh] after an inertial-mode call that could not decode
    its image. *)
Example primed_after_failed_decode :
  trackRGBDi (tracking atlasAB) (imageAt 1600 false) (imageAt 1600 true) fresh
    = Returns (mkTrackResult false None [] None, primed).
Proof. reflexivity. Qed.

(** C1. With the engine tracking (state 2, no merge) [trackRGBD] recomputes
    the reference poses, stores the projected pose and returns [true], but it
    leaves [hasTracked_] at [false]; [trackRGBDi], on the same engine answer,
    sets it. *)
Theorem trackRGBD_leaves_hasTracked_unset :
  hasTracked_ primed = false /\
  (exists r s',
      trackRGBD (tracking atlasAB) (imageAt 1600 true) (imageAt 1600 true) primed
        = Returns (r, s') /\
      tr_ret r = true /\
      mapReferencePoses_ s' !! 1%positive = Some (mkVec3 10 20 0)%Z /\
      mapReferencePoses_ s' !! 2%positive = Some (mkVec3 14 20 0)%Z /\
      latestTrackedPose_ s' = (mkVec3 15 20 0)%Z /\
      hasTracked_ s' = false) /\
  (exists r s',
      trackRGBDi (tracking atlasAB) (imageAt 1600 true) (imageAt 1600 true)
                 (handleIMU (imuAt 2000) primed)
        = Returns (r, s') /\
      tr_ret r = true /\
      latestTrackedPose_ s' = (mkVec3 15 20 0)%Z /\
      hasTracked_ s' = true).
Proof.
  split; [reflexivity|]. split.
  - eexists _, _. split; [reflexivity|].
    split_and!; reflexivity.
  - eexists _, _. split; [reflexivity|].
    split_and!; reflexivity.
Qed.

(** Against C2 as stated: one sample stamped 1.0 is waiting when an image
    pair stamped 1.6 arrives.  The call removes the sample, finds the buffer
    empty, and returns without calling the engine: the sample is removed and
    never passed to the engine. *)
Lemma runInertial_drops_drained_samples :
  exists r s',
    runInertial [EvImu (imuAt 1000);
                 EvFrame (tracking atlasAB) (imageAt 1600 true) (imageAt 1600 true)]
                fresh
      = Returns ([(imageAt 1600 true, imageAt 1600 true, r)], s') /\
    tr_vImuMeas r = [imuPoint (imuAt 1000)] /\
    imuBuf_ s' = [] /\
    tr_call r = None.
Proof.
  eexists _, _. split; [reflexivity|].
  split_and!; reflexivity.
Qed.

Lemma runInertial_consumes_in_order_witness :
  let evs := [EvImu (imuAt 1000); EvImu (imuAt 2000);
              EvFrame (tracking atlasAB) (imageAt 1600 true) (imageAt 1600 true);
              EvImu (imuAt 2500);
              EvFrame (tracking atlasAB) (imageAt 2200 true) (imageAt 2200 true)] in
  exists rs s' steps,
    runInertial evs fresh = Returns (rs, s') /\
    bufferSteps evs rs (imuBuf_ fresh) steps (imuBuf_ s') /\
    concat (map fst steps) ++ imuBuf_ s' = imuBuf_ fresh ++ arrivals evs.
Proof.
  intros evs.
  destruct (runInertial evs fresh) as [[rs s']|] eqn:E;
    [|discriminate E].
  destruct (runInertial_consumes_in_order evs fresh s' rs E)
    as (steps & Hsteps & _ & Hcat).
  exists rs, s', steps. auto.
Defined.

(** The failing input of C3: keyframe 4, the parent keyframe of [mapB], is
    gone from the atlas. *)
Lemma calculateReferencePoses_missing_parent_witness :
  calculateReferencePoses (fun _ => atlasCulled) primed = NullDeref.
Proof.
  apply (calculateReferencePoses_missing_parent
           (fun _ => atlasCulled) primed 1%positive mapB).
  - reflexivity.
  - simpl. constructor.
  - discriminate.
  - vm_compute. reflexivity.
Defined.

(** Against C4 as stated: the parent keyframe 4 of [mapMerged] is indexed,
    but it belongs to [mapMerged] itself, which has no entry when the loop
    reaches it, the only map of the forest.  The pose stored for the map is
    what the default construction of that entry left, composed with the
    keyframe's pose: it changes with the content of the storage, and no
    reference pose composed with the keyframe's pose accounts for it. *)
Lemma calculateReferencePosesU_unresolved_owner :
  let forest := GetAllMaps atlasMerged in
  let allKFs := makeKFIdPair (sortMaps forest) in
  (forall m, m ∈ forest -> GetInitKFid m <> 0 ->
             is_Some (OMap.find (GetInitKFid m - 1) allKFs)) /\
  sortMaps forest = [mapMerged] /\
  OMap.find (GetInitKFid mapMerged - 1) allKFs = Some (kf 4 4 2) /\
  GetMap (kf 4 4 2) = mapPtr mapMerged /\
  (forall uninit, exists s',
      calculateReferencePosesU uninit (fun _ => atlasMerged) primed = Returns s' /\
      mapReferencePoses_ s' !! mapPtr mapMerged =
        Some (compose (uninit (mapPtr mapMerged)) (se3ToAffine (GetPose (kf 4 4 2))))) /\
  ~ (exists ref, forall uninit s',
        calculateReferencePosesU uninit (fun _ => atlasMerged) primed = Returns s' ->
        mapReferencePoses_ s' !! mapPtr mapMerged =
          Some (compose ref (se3ToAffine (GetPose (kf 4 4 2))))).
Proof.
  intros forest allKFs. split_and!.
  - intros m Hin _. apply list_elem_of_singleton in Hin as ->.
    exists (kf 4 4 2). reflexivity.
  - reflexivity.
  - reflexivity.
  - reflexivity.
  - intros uninit. eexists. split; reflexivity.
  - intros (ref & Href).
    pose proof (Href (fun _ => mkVec3 0 0 0)%Z _ eq_refl) as H0.
    pose proof (Href (fun _ => mkVec3 1 0 0)%Z _ eq_refl) as H1.
    change (Some (mkVec3 4 0 0)%Z = Some (vadd ref (mkVec3 4 0 0)%Z)) in H0.
    change (Some (mkVec3 5 0 0)%Z = Some (vadd ref (mkVec3 4 0 0)%Z)) in H1.
    rewrite <- H0 in H1. discriminate H1.
Qed.

Lemma calculateReferencePosesU_chains_witness :
  exists s',
    (forall uninit,
        calculateReferencePosesU uninit (fun _ => atlasAB) primed = Returns s') /\
    (forall m, m ∈ GetAllMaps atlasAB -> GetInitKFid m <> 0 ->
       exists kf ref,
         OMap.find (GetInitKFid m - 1)
                   (makeKFIdPair (sortMaps (GetAllMaps atlasAB))) = Some kf /\
         mapReferencePoses_ s' !! GetMap kf = Some ref /\
         mapReferencePoses_ s' !! mapPtr m =
           Some (compose ref (se3ToAffine (GetPose kf)))).
Proof.
  destruct (calculateReferencePosesU_chains (fun _ => atlasAB) primed 1%positive)
    as (s' & Hcalc & _ & _ & _ & _ & _ & Hchain).
  - reflexivity.
  - simpl. apply NoDup_cons. split; [|apply NoDup_singleton].
    intros H. apply list_elem_of_singleton in H. discriminate H.
  - intros m Hin Hnz. simpl in Hin.
    apply elem_of_cons in Hin as [->|Hin].
    + exists (kf 4 4 1), mapA. split_and!.
      * vm_compute. reflexivity.
      * simpl. right. constructor.
      * reflexivity.
      * reflexivity.
    + apply list_elem_of_singleton in Hin as ->. destruct Hnz. reflexivity.
  - exists s'. split; [exact Hcalc|exact Hchain].
Defined.



(** Against C5 as stated: the first inertial-mode call of a session cannot
    decode its image.  It returns [false], and the atlas handle, null
    before, is now the engine's atlas. *)
Lemma trackRGBDi_decode_failure_sets_atlas :
  toCvShare (img_data (imageAt 1600 false)) = None /\
  exists r s',
    trackRGBDi (tracking atlasAB) (imageAt 1600 false) (imageAt 1600 true) fresh
      = Returns (r, s') /\
    tr_ret r = false /\
    orbAtlas_ fresh = None /\
    orbAtlas_ s' = Some 1%positive.
Proof.
  split; [reflexivity|].
  eexists _, _. split; [reflexivity|].
  split_and!; reflexivity.
Qed.

Lemma decode_failure_keeps_state_witness :
  trackRGBD (tracking atlasAB) (imageAt 1600 true) (imageAt 1600 false) buffered
    = Returns (mkTrackResult false None [] None, buffered) /\
  exists s',
    trackRGBDi (tracking atlasAB) (imageAt 1600 true) (imageAt 1600 false) buffered
      = Returns (mkTrackResult false None [] None, s') /\
    imuBuf_ s' = imuBuf_ buffered.
Proof.
  destruct (decode_failure_keeps_state
              (tracking atlasAB) (imageAt 1600 true) (imageAt 1600 false) buffered
              (or_intror eq_refl))
    as (HD & s' & Hi & Hbuf & _).
  split; [exact HD|]. exists s'. split; [exact Hi|exact Hbuf].
Defined.

Lemma merge_gate_keeps_tracked_state_witness :
  exists r s',
    trackRGBDi (merging atlasAB) (imageAt 1600 true) (imageAt 1600 true) buffered
      = Returns (r, s') /\
    tr_ret r = false /\
    latestTrackedPose_ s' = latestTrackedPose_ buffered /\
    mapReferencePoses_ s' = mapReferencePoses_ buffered /\
    hasTracked_ s' = hasTracked_ buffered.
Proof.
  exact (proj1 (merge_gate_keeps_tracked_state
                  (merging atlasAB) (imageAt 1600 true) (imageAt 1600 true) buffered
                  eq_refl)).
Defined.

(** [tracked] is a state of the interface. *)
Lemma tracked_reachable : reachable tracked.
Proof.
  eapply (reach_trackRGBDi (handleIMU (imuAt 2000) fresh)
            (tracking atlasAB) (imageAt 1600 true) (imageAt 1600 true)).
  - apply reach_handleIMU, reach_init. reflexivity.
  - reflexivity.
Qed.

Lemma tracked_hasTracked : hasTracked_ tracked = true.
Proof. reflexivity. Qed.

(** The bridge on [tracked]: tracked pose (15, 20, 0), odometry at (1, 2, 0)
    stamped 100.7 s. *)
Example getMapToOdomTF_example :
  getMapToOdomTF (odomAt 100700) staleTf tracked =
    Normal (mkTransformStamped (mkStamp 101 200000000) "map" "odom"
                               (mkVec3 14 18 0)%Z (mkQuat 1 0 0 0)%Z) /\
  getMapToOdomTF (odomAt 100700) staleTf fresh = Normal staleTf.
Proof. split; reflexivity. Qed.

(** Two odometry stamps for which the bridge does not stamp the transform
    with the odometry time plus half a second.  A stamp half a second before
    the epoch, (-1 s, 500000000 ns): the conversion to [rclcpp::Time]
    throws, and nothing is written.  The last stamp but 0.3 s that the
    message type holds, (2147483647 s, 700000000 ns): the sum is 2147483648.2
    s, and the seconds written wrap to -2147483648. *)
Example getMapToOdomTF_stamp_out_of_range :
  hasTracked_ tracked = true /\
  stamp_wf (odom_stamp (odomAt (-500))) /\
  getMapToOdomTF (odomAt (-500)) staleTf tracked = Raised RuntimeError /\
  stamp_wf (odom_stamp (odomAt 2147483647700)) /\
  (exists out,
     getMapToOdomTF (odomAt 2147483647700) staleTf tracked = Normal out /\
     tf_stamp out = mkStamp (-2147483648) 200000000 /\
     rclcppTime (tf_stamp out) <>
       (rclcppTime (odom_stamp (odomAt 2147483647700)) + 500000000)%Z).
Proof.
  split; [reflexivity|].
  split; [repeat split; vm_compute; congruence|].
  split; [reflexivity|].
  split; [repeat split; vm_compute; congruence|].
  eexists. split; [reflexivity|]. split; [reflexivity|].
  vm_compute. congruence.
Qed.

Lemma getMapToOdomTF_correct_witness :
  getMapToOdomTF (odomAt 100700) staleTf fresh = Normal staleTf /\
  exists out,
    getMapToOdomTF (odomAt 100700) staleTf tracked = Normal out /\
    tf_stamp out = mkStamp 101 200000000 /\
    tf_frame_id out = globalFrame_ tracked /\
    tf_child_frame_id out = odomFrame_ tracked.
Proof.
  split.
  { apply (getMapToOdomTF_correct (odomAt 100700) staleTf fresh). reflexivity. }
  destruct (getMapToOdomTF_correct (odomAt 100700) staleTf tracked)
    as (_ & _ & Htrue).
  destruct (Htrue tracked_hasTracked) as (out & Hout & _ & Hstamp & _ & _ & Hframe & Hchild & _).
  - vm_compute. congruence.
  - split; vm_compute; congruence.
  - vm_compute. reflexivity.
  - exists out. split_and!; [exact Hout|exact Hstamp|exact Hframe|exact Hchild].
Defined.

(** The pose graph of [tracked]: the keyframes of both maps, by identifier. *)
Example getOptimizedPoseGraph_example :
  exists graph' s',
    getOptimizedPoseGraph (fun _ => atlasAB) (mkMapGraph [] []) false tracked
      = Returns (graph', s') /\
    poses_id graph' = [0; 1; 2; 3; 4; 5; 6] /\
    map (fun p => position (ps_pose p)) (poses graph') =
      [mkVec3 10 20 0; mkVec3 11 20 0; mkVec3 12 20 0; mkVec3 13 20 0;
       mkVec3 14 20 0; mkVec3 14 20 0; mkVec3 15 20 0]%Z.
Proof.
  eexists _, _. split; [reflexivity|].
  split; reflexivity.
Qed.

Lemma getOptimizedPoseGraph_all_ascending_witness :
  exists graph' s',
    getOptimizedPoseGraph (fun _ => atlasAB) (mkMapGraph [] []) false tracked
      = Returns (graph', s') /\
    StronglySorted N.lt (poses_id graph') /\
    NoDup (poses_id graph').
Proof.
  destruct (getOptimizedPoseGraph_all_ascending
              (fun _ => atlasAB) (mkMapGraph [] []) tracked tracked_reachable)
    as (graph' & s' & Hg & _ & Hid & _ & Hsorted & Hnd).
  exists graph', s'. simpl in Hid. rewrite Hid. auto.
Defined.

End Runs.

(** * Further properties of the interface *)

(** ** The keyframe index as a lookup table *)
Section IndexLookup.

Context `{G : Geometry}.

Lemma makeKFIdPair_flat (mapsList : list Map) :
  makeKFIdPair mapsList =
  fold_left (fun idx kf => OMap.insert (mnId kf) kf idx)
            (flat_map GetAllKeyFrames mapsList) OMap.empty.
Proof.
  unfold makeKFIdPair. generalize (@OMap.empty KeyFrame).
  induction mapsList as [|m rest IH]; simpl; intros idx; [reflexivity|].
  rewrite fold_left_app. apply IH.
Qed.

Lemma find_fold_insert (id : N) (l : list KeyFrame) (idx : OMap.t KeyFrame) :
  OMap.find id (fold_left (fun idx kf => OMap.insert (mnId kf) kf idx) l idx) =
  match last (filter (fun kf => mnId kf = id) l) with
  | Some kf => Some kf
  | None => OMap.find id idx
  end.
Proof.
  revert idx. induction l as [|x rest IH]; intros idx; [reflexivity|].
  simpl fold_left. rewrite IH, OMapFacts.find_insert, filter_cons.
  destruct (decide (mnId x = id)) as [<-|Hne].
  - rewrite N.eqb_refl, last_cons.
    destruct (last (filter (fun kf => mnId kf = mnId x) rest)); reflexivity.
  - destruct (N.eqb_spec id (mnId x)); [congruence|reflexivity].
Qed.

(** X1. Under each identifier the index built by [makeKFIdPair] holds the
    last keyframe carrying that identifier, in the order the maps and their
    keyframes are visited, and nothing under an identifier no keyframe
    carries. *)
Theorem makeKFIdPair_lookup (mapsList : list Map) (id : N) :
  OMap.find id (makeKFIdPair mapsList) =
  last (filter (fun kf => mnId kf = id) (flat_map GetAllKeyFrames mapsList)).
Proof.
  rewrite makeKFIdPair_flat, find_fold_insert.
  destruct (last _); reflexivity.
Qed.

End IndexLookup.

(** ** Reading the table through [operator[]] *)
Section TableFacts.

Context `{G : Geometry}.

Lemma defaults_added_refl (tbl : gmap MapPtr Affine) : defaults_added tbl tbl.
Proof. split; auto. Qed.

Lemma defaults_added_trans (t1 t2 t3 : gmap MapPtr Affine) :
  defaults_added t1 t2 -> defaults_added t2 t3 -> defaults_added t1 t3.
Proof.
  intros [H12 H21] [H23 H32]. split.
  - auto.
  - intros k v H3. destruct (H32 k v H3) as [H2|[H2 ->]].
    + auto.
    + destruct (t1 !! k) as [x|] eqn:E; [|auto].
      rewrite (H12 k x E) in H2. discriminate.
Qed.

Lemma defaults_added_refPoseAt (k : MapPtr) (tbl : gmap MapPtr Affine) :
  defaults_added tbl (refPoseAt k tbl).2.
Proof.
  unfold refPoseAt. destruct (tbl !! k) eqn:E; simpl.
  - apply defaults_added_refl.
  - split.
    + intros k' v H. rewrite lookup_insert_ne; [exact H|congruence].
    + intros k' v. destruct (decide (k = k')) as [<-|Hne].
      * rewrite lookup_insert_eq. intros [= <-]. auto.
      * rewrite lookup_insert_ne by exact Hne. auto.
Qed.

Lemma defaults_added_reads (tbl tbl' : gmap MapPtr Affine) (k : MapPtr) :
  defaults_added tbl tbl' -> refOrDefault tbl' k = refOrDefault tbl k.
Proof.
  intros [Hsub Hnew]. unfold refOrDefault.
  destruct (tbl' !! k) as [v|] eqn:E'.
  - destruct (Hnew k v E') as [->|[-> ->]]; reflexivity.
  - destruct (tbl !! k) as [v|] eqn:E; [|reflexivity].
    rewrite (Hsub k v E) in E'. discriminate.
Qed.

Lemma refPoseAt_lookup (k : MapPtr) (tbl : gmap MapPtr Affine) :
  (refPoseAt k tbl).2 !! k = Some (refOrDefault tbl k).
Proof.
  unfold refPoseAt, refOrDefault. destruct (tbl !! k) eqn:E; simpl.
  - exact E.
  - apply lookup_insert_eq.
Qed.

End TableFacts.

(** ** The queries: pose graph, map data, map points *)
Section Queries.

Context `{G : Geometry}.

Lemma pushKeyFrame_fold_table {X} (f : X -> KeyFrame) (frame : string) (l : list X)
      (graph : MapGraph) (tbl : gmap MapPtr Affine) :
  defaults_added tbl
    (fold_left (fun acc x => pushKeyFrame frame (f x) acc) l (graph, tbl)).2.
Proof.
  revert graph tbl.
  induction l as [|x rest IH]; simpl; intros graph tbl.
  - apply defaults_added_refl.
  - pose proof (defaults_added_refPoseAt (GetMap (f x)) tbl) as Hstep.
    destruct (refPoseAt (GetMap (f x)) tbl) as [ref tbl1]. simpl in Hstep.
    eapply defaults_added_trans; [exact Hstep|apply IH].
Qed.

(** What [getOptimizedPoseGraph] returns for a list of keyframes. *)
Lemma pushKeyFrame_fold_result {X} (f : X -> KeyFrame) (l : list X)
      (graph : MapGraph) (s : State) :
  exists graph' tbl',
    fold_left (fun acc x => pushKeyFrame (globalFrame_ s) (f x) acc) l
              (graph, mapReferencePoses_ s) = (graph', tbl') /\
    poses graph' =
      poses graph ++
      map (fun x => stampedPose (globalFrame_ s) (mapReferencePoses_ s) (f x)) l /\
    poses_id graph' = poses_id graph ++ map (fun x => mnId (f x)) l /\
    defaults_added (mapReferencePoses_ s) tbl'.
Proof.
  destruct (pushKeyFrame_fold f (globalFrame_ s) l graph (mapReferencePoses_ s))
    as (Hp & Hid & _).
  pose proof (pushKeyFrame_fold_table f (globalFrame_ s) l graph
                                      (mapReferencePoses_ s)) as Ht.
  destruct (fold_left _ l _) as [graph' tbl']. exists graph', tbl'. auto.
Qed.

(** X2. With a cached atlas, the current-map pose graph holds one entry per
    keyframe that the atlas reports for the current map, in the order the
    atlas reports them (which need not be the order of the identifiers); each
    pose is the keyframe's pose composed with the reference pose read for its
    map, stamped with the keyframe's time in the global frame. *)
Theorem getOptimizedPoseGraph_current (mem : AtlasPtr -> Atlas) (graph : MapGraph)
        (s : State) (a : AtlasPtr) :
  orbAtlas_ s = Some a ->
  exists graph' s',
    getOptimizedPoseGraph mem graph true s = Returns (graph', s') /\
    poses graph' =
      poses graph ++
      map (stampedPose (globalFrame_ s) (mapReferencePoses_ s))
          (atlasGetAllKeyFrames (mem a)) /\
    poses_id graph' = poses_id graph ++ map mnId (atlasGetAllKeyFrames (mem a)).
Proof.
  intros Ha. unfold getOptimizedPoseGraph. simpl. rewrite Ha.
  destruct (pushKeyFrame_fold_result (fun kf => kf) (atlasGetAllKeyFrames (mem a))
                                     graph s)
    as (graph' & tbl' & -> & Hp & Hid & _).
  exists graph', (set_mapReferencePoses tbl' s). auto.
Qed.

(** A pose-graph query changes the table only, by adding defaults. *)
Lemma getOptimizedPoseGraph_frame (mem : AtlasPtr -> Atlas) (graph graph' : MapGraph)
      (only : bool) (s s' : State) :
  getOptimizedPoseGraph mem graph only s = Returns (graph', s') ->
  s' = set_mapReferencePoses (mapReferencePoses_ s') s /\
  defaults_added (mapReferencePoses_ s) (mapReferencePoses_ s').
Proof.
  unfold getOptimizedPoseGraph. destruct only; simpl.
  - destruct (orbAtlas_ s) as [a|]; [|discriminate].
    destruct (pushKeyFrame_fold_result (fun kf => kf) (atlasGetAllKeyFrames (mem a))
                                       graph s)
      as (g & tbl' & -> & _ & _ & Ht).
    intros [= <- <-]. split; [reflexivity|exact Ht].
  - destruct (pushKeyFrame_fold_result snd (allKFs_ s) graph s)
      as (g & tbl' & -> & _ & _ & Ht).
    intros [= <- <-]. split; [reflexivity|exact Ht].
Qed.

(** The points pushed for one requested keyframe. *)
Lemma pushWordPoint_fold (kf : KeyFrame) (pts : list MapPoint)
      (acc : list (Vec3 scalar)) (tbl : gmap MapPtr Affine) :
  exists tbl',
    fold_left (pushWordPoint kf) pts (acc, tbl) =
      (acc ++ map (fun mapPoint =>
                     transformPointWithReferenceMsg
                       (refOrDefault tbl (GetMap kf))
                       (vector3fORBToROS (GetWorldPos mapPoint)))
                  (List.filter (fun mapPoint => negb (isBad mapPoint)) pts),
       tbl') /\
    defaults_added tbl tbl'.
Proof.
  revert acc tbl.
  induction pts as [|p rest IH]; simpl; intros acc tbl.
  - exists tbl. rewrite app_nil_r. split; [reflexivity|apply defaults_added_refl].
  - destruct (isBad p); simpl.
    + apply IH.
    + pose proof (refPoseAt_fst (GetMap kf) tbl) as Hfst.
      pose proof (defaults_added_refPoseAt (GetMap kf) tbl) as Hstep.
      destruct (refPoseAt (GetMap kf) tbl) as [ref tbl1]. simpl in Hfst, Hstep.
      destruct (IH (acc ++ [transformPointWithReferenceMsg ref
                              (vector3fORBToROS (GetWorldPos p))]) tbl1)
        as (tbl' & -> & Ht).
      exists tbl'. split.
      * rewrite <- app_assoc. simpl. subst ref.
        rewrite (defaults_added_reads _ _ _ Hstep). reflexivity.
      * eapply defaults_added_trans; eassumption.
Qed.

Lemma pushNode_fold (allKFs : OMap.t KeyFrame) (ids : list Z)
      (nodes : list KeyFrameMsg) (tbl : gmap MapPtr Affine) :
  exists tbl',
    fold_left (pushNode allKFs) ids (nodes, tbl) =
      (nodes ++ flat_map (nodesFor allKFs tbl) ids, tbl') /\
    defaults_added tbl tbl'.
Proof.
  revert nodes tbl.
  induction ids as [|kFId rest IH]; simpl; intros nodes tbl.
  - exists tbl. rewrite app_nil_r. split; [reflexivity|apply defaults_added_refl].
  - unfold nodesFor at 1. destruct (OMap.find (kfKey kFId) allKFs) as [kf|] eqn:E.
    + destruct (pushWordPoint_fold kf (GetMapPoints kf) [] tbl) as (tbl1 & -> & H1).
      match goal with
      | |- context [fold_left (pushNode allKFs) rest (?n, tbl1)] =>
          destruct (IH n tbl1) as (tbl' & -> & H2)
      end.
      exists tbl'. split.
      * rewrite <- app_assoc. simpl. f_equal. f_equal. f_equal.
        apply flat_map_ext. intros id. unfold nodesFor.
        destruct (OMap.find (kfKey id) allKFs); [|reflexivity].
        rewrite (defaults_added_reads _ _ _ H1). reflexivity.
      * eapply defaults_added_trans; eassumption.
    + simpl. apply IH.
Qed.

(** X3. [mapDataToMsg] stamps the message with the global frame, replaces
    its graph by the pose graph computed on an empty graph, and, when map
    points are requested, appends one node per requested identifier that the
    index holds, in request order: identifiers the index does not hold are
    skipped, and a node carries exactly the keyframe's map points that are
    not bad, projected through the reference pose read for the keyframe's
    map.  Without map points the nodes are left as they were. *)
Theorem mapDataToMsg_nodes (mem : AtlasPtr -> Atlas) (msg msg' : MapData)
        (only points : bool) (ids : list Z) (s s' : State) :
  mapDataToMsg mem msg only points ids s = Returns (msg', s') ->
  md_frame_id msg' = globalFrame_ s /\
  (exists s1,
      getOptimizedPoseGraph mem (mkMapGraph [] []) only s
        = Returns (md_graph msg', s1)) /\
  md_nodes msg' =
    md_nodes msg ++
    (if points
     then flat_map (nodesFor (allKFs_ s) (mapReferencePoses_ s)) ids
     else []).
Proof.
  unfold mapDataToMsg.
  destruct (getOptimizedPoseGraph mem _ only s) as [[g s1]|] eqn:Hg; simpl;
    [|discriminate].
  destruct (getOptimizedPoseGraph_frame _ _ _ _ _ _ Hg) as (Hs1 & Ht).
  assert (Hidx : allKFs_ s1 = allKFs_ s) by (rewrite Hs1; reflexivity).
  assert (Hframe : globalFrame_ s1 = globalFrame_ s) by (rewrite Hs1; reflexivity).
  destruct points.
  - destruct (pushNode_fold (allKFs_ s1) ids (md_nodes msg) (mapReferencePoses_ s1))
      as (tbl' & -> & _).
    intros [= <- <-]. simpl. split_and!; [exact Hframe|eauto|].
    rewrite Hidx. f_equal. apply flat_map_ext. intros id. unfold nodesFor.
    destruct (OMap.find (kfKey id) (allKFs_ s)); [|reflexivity].
    rewrite (defaults_added_reads _ _ _ Ht). reflexivity.
  - intros [= <- <-]. simpl. rewrite app_nil_r. split_and!; [exact Hframe|eauto|].
    reflexivity.
Qed.

(** The inner loop of [getCurrentMapPoints] on a keyframe that is indexed. *)
Lemma pushMapPoint_fold_indexed (allKFs : OMap.t KeyFrame) (KF kf : KeyFrame)
      (pts : list MapPoint) (acc : list Vector3f) (tbl : gmap MapPtr Affine) :
  OMap.find (mnId KF) allKFs = Some kf ->
  exists tbl',
    ofold (pushMapPoint allKFs KF) pts (acc, tbl) =
      Returns (acc ++ map (fun mapPoint =>
                             transformPointWithReference
                               (refOrDefault tbl (GetMap kf))
                               (vector3fORBToROS (GetWorldPos mapPoint)))
                          (List.filter (fun mapPoint => negb (isBad mapPoint)) pts),
               tbl') /\
    defaults_added tbl tbl'.
Proof.
  intros Hfind. revert acc tbl.
  induction pts as [|p rest IH]; simpl; intros acc tbl.
  - exists tbl. rewrite app_nil_r. split; [reflexivity|apply defaults_added_refl].
  - destruct (isBad p); simpl.
    + apply IH.
    + rewrite Hfind.
      pose proof (refPoseAt_fst (GetMap kf) tbl) as Hfst.
      pose proof (defaults_added_refPoseAt (GetMap kf) tbl) as Hstep.
      destruct (refPoseAt (GetMap kf) tbl) as [ref tbl1]. simpl in Hfst, Hstep.
      simpl.
      match goal with
      | |- context [ofold _ rest (?a, tbl1)] =>
          destruct (IH a tbl1) as (tbl' & -> & Ht)
      end.
      exists tbl'. split.
      * rewrite <- app_assoc. simpl. subst ref.
        rewrite (defaults_added_reads _ _ _ Hstep). reflexivity.
      * eapply defaults_added_trans; eassumption.
Qed.

(** The inner loop on a keyframe that is not indexed: harmless as long as
    every map point is bad, a null dereference at the first good one. *)
Lemma pushMapPoint_fold_unindexed (allKFs : OMap.t KeyFrame) (KF : KeyFrame)
      (pts : list MapPoint) (acc : list Vector3f) (tbl : gmap MapPtr Affine) :
  OMap.find (mnId KF) allKFs = None ->
  ofold (pushMapPoint allKFs KF) pts (acc, tbl) =
    match List.filter (fun mapPoint => negb (isBad mapPoint)) pts with
    | [] => Returns (acc, tbl)
    | _ :: _ => NullDeref
    end.
Proof.
  intros Hfind.
  induction pts as [|p rest IH]; simpl; [reflexivity|].
  destruct (isBad p); simpl; [exact IH|].
  rewrite Hfind. reflexivity.
Qed.

Lemma getCurrentMapPoints_loop (allKFs : OMap.t KeyFrame) (KFs : list KeyFrame)
      (acc : list Vector3f) (tbl : gmap MapPtr Affine) :
  (forall KF, KF ∈ KFs -> goodPoints KF <> [] ->
              is_Some (OMap.find (mnId KF) allKFs)) ->
  exists tbl',
    ofold (fun acc KF => ofold (pushMapPoint allKFs KF) (GetMapPoints KF) acc)
          KFs (acc, tbl)
      = Returns (acc ++ flat_map (cloudFor allKFs tbl) KFs, tbl') /\
    defaults_added tbl tbl'.
Proof.
  revert acc tbl.
  induction KFs as [|KF rest IH]; simpl; intros acc tbl Hidx.
  - exists tbl. rewrite app_nil_r. split; [reflexivity|apply defaults_added_refl].
  - assert (Hrest : forall KF', KF' ∈ rest -> goodPoints KF' <> [] ->
                                is_Some (OMap.find (mnId KF') allKFs)).
    { intros KF' Hin. apply Hidx. right. exact Hin. }
    unfold cloudFor at 1.
    destruct (OMap.find (mnId KF) allKFs) as [kf|] eqn:E.
    + destruct (pushMapPoint_fold_indexed allKFs KF kf (GetMapPoints KF) acc tbl E)
        as (tbl1 & -> & H1).
      simpl.
      match goal with
      | |- context [ofold _ rest (?a, tbl1)] =>
          destruct (IH a tbl1 Hrest) as (tbl' & -> & H2)
      end.
      exists tbl'. split.
      * rewrite <- app_assoc. unfold goodPoints. do 4 f_equal.
        apply flat_map_ext. intros K. unfold cloudFor.
        destruct (OMap.find (mnId K) allKFs); [|reflexivity].
        rewrite (defaults_added_reads _ _ _ H1). reflexivity.
      * eapply defaults_added_trans; eassumption.
    + rewrite (pushMapPoint_fold_unindexed allKFs KF _ acc tbl E).
      fold (goodPoints KF).
      destruct (goodPoints KF) as [|p ps] eqn:Egood.
      * simpl. apply IH, Hrest.
      * destruct (Hidx KF ltac:(left) ltac:(rewrite Egood; discriminate))
          as [x Hx]. congruence.
Qed.

(** X4. With a cached atlas, and every keyframe of the current map that has
    a good map point present in the index, [getCurrentMapPoints] returns the
    cloud of the good map points of the current map's keyframes, keyframe by
    keyframe in the atlas's order, each projected through the reference pose
    read for its keyframe's map: a bad map point never reaches the cloud. *)
Theorem getCurrentMapPoints_cloud (mem : AtlasPtr -> Atlas) (s : State)
        (a : AtlasPtr) :
  orbAtlas_ s = Some a ->
  (forall KF, KF ∈ atlasGetAllKeyFrames (mem a) -> goodPoints KF <> [] ->
              is_Some (OMap.find (mnId KF) (allKFs_ s))) ->
  exists s',
    getCurrentMapPoints mem s =
      Returns (MapPointsToPCL
                 (flat_map (cloudFor (allKFs_ s) (mapReferencePoses_ s))
                           (atlasGetAllKeyFrames (mem a))),
               s').
Proof.
  intros Ha Hidx. unfold getCurrentMapPoints. rewrite Ha.
  destruct (getCurrentMapPoints_loop (allKFs_ s) (atlasGetAllKeyFrames (mem a))
                                     [] (mapReferencePoses_ s) Hidx)
    as (tbl' & -> & _).
  simpl. eauto.
Qed.

(** X5. When a keyframe of the current map has a good map point and is not
    in the index, [getCurrentMapPoints] dereferences the null pointer that
    the index lookup yields; a keyframe whose map points are all bad is never
    looked up. *)
Theorem getCurrentMapPoints_unindexed (mem : AtlasPtr -> Atlas) (s : State)
        (a : AtlasPtr) (KF : KeyFrame) :
  orbAtlas_ s = Some a ->
  KF ∈ atlasGetAllKeyFrames (mem a) ->
  goodPoints KF <> [] ->
  OMap.find (mnId KF) (allKFs_ s) = None ->
  getCurrentMapPoints mem s = NullDeref.
Proof.
  intros Ha Hin Hgood Hfind. unfold getCurrentMapPoints. rewrite Ha.
  generalize (@nil Vector3f, mapReferencePoses_ s).
  induction (atlasGetAllKeyFrames (mem a)) as [|K rest IH]; intros acc.
  - apply elem_of_nil in Hin. destruct Hin.
  - simpl. apply elem_of_cons in Hin as [<-|Hin].
    + destruct acc as [pts tbl].
      rewrite (pushMapPoint_fold_unindexed (allKFs_ s) KF _ pts tbl Hfind).
      fold (goodPoints KF). destruct (goodPoints KF); [congruence|reflexivity].
    + destruct (ofold (pushMapPoint (allKFs_ s) K) (GetMapPoints K) acc) as [acc'|];
        simpl; [|reflexivity].
      destruct (ofold _ rest acc') as [[pts tbl]|] eqn:E; simpl.
      * specialize (IH Hin acc'). simpl in IH. rewrite E in IH. discriminate.
      * reflexivity.
Qed.

(** A map-point query changes the table only, by adding defaults. *)
Lemma getCurrentMapPoints_frame (mem : AtlasPtr -> Atlas) (cloud : PointCloud2)
      (s s' : State) :
  getCurrentMapPoints mem s = Returns (cloud, s') ->
  s' = set_mapReferencePoses (mapReferencePoses_ s') s /\
  defaults_added (mapReferencePoses_ s) (mapReferencePoses_ s').
Proof.
  unfold getCurrentMapPoints.
  destruct (orbAtlas_ s) as [a|]; [|discriminate].
  generalize (defaults_added_refl (mapReferencePoses_ s)).
  generalize (mapReferencePoses_ s) at 2 3 as tbl0.
  generalize (@nil Vector3f) as acc.
  induction (atlasGetAllKeyFrames (mem a)) as [|KF rest IH]; simpl;
    intros acc tbl0 H0.
  - intros [= <- <-]. split; [reflexivity|exact H0].
  - destruct (OMap.find (mnId KF) (allKFs_ s)) as [kf|] eqn:E.
    + destruct (pushMapPoint_fold_indexed (allKFs_ s) KF kf (GetMapPoints KF)
                                          acc tbl0 E) as (tbl1 & -> & H1).
      simpl. apply IH. eapply defaults_added_trans; eassumption.
    + rewrite (pushMapPoint_fold_unindexed (allKFs_ s) KF _ acc tbl0 E).
      destruct (List.filter _ (GetMapPoints KF)); simpl; [|discriminate].
      apply IH, H0.
Qed.

Lemma mapDataToMsg_frame (mem : AtlasPtr -> Atlas) (msg msg' : MapData)
      (only points : bool) (ids : list Z) (s s' : State) :
  mapDataToMsg mem msg only points ids s = Returns (msg', s') ->
  s' = set_mapReferencePoses (mapReferencePoses_ s') s /\
  defaults_added (mapReferencePoses_ s) (mapReferencePoses_ s').
Proof.
  unfold mapDataToMsg.
  destruct (getOptimizedPoseGraph mem _ only s) as [[g s1]|] eqn:Hg; simpl;
    [|discriminate].
  destruct (getOptimizedPoseGraph_frame _ _ _ _ _ _ Hg) as (Hs1 & Ht).
  destruct points.
  - destruct (pushNode_fold (allKFs_ s1) ids (md_nodes msg) (mapReferencePoses_ s1))
      as (tbl' & -> & Ht').
    intros [= <- <-]. simpl. split.
    + rewrite Hs1. reflexivity.
    + eapply defaults_added_trans; eassumption.
  - intros [= <- <-]. auto.
Qed.

(** X6. The three queries ([getOptimizedPoseGraph], [mapDataToMsg],
    [getCurrentMapPoints]) change nothing of the interface but the
    reference-pose table, and the table only grows: every stored pose stays
    as it is, and the only entries added are default transforms under keys
    the table did not hold. *)
Theorem queries_keep_state (s s' : State) :
  (exists mem graph only graph',
      getOptimizedPoseGraph mem graph only s = Returns (graph', s')) \/
  (exists mem msg only points ids msg',
      mapDataToMsg mem msg only points ids s = Returns (msg', s')) \/
  (exists mem cloud, getCurrentMapPoints mem s = Returns (cloud, s')) ->
  s' = set_mapReferencePoses (mapReferencePoses_ s') s /\
  defaults_added (mapReferencePoses_ s) (mapReferencePoses_ s').
Proof.
  intros [(mem & graph & only & graph' & H)
         |[(mem & msg & only & points & ids & msg' & H)
          |(mem & cloud & H)]].
  - eapply getOptimizedPoseGraph_frame, H.
  - eapply mapDataToMsg_frame, H.
  - eapply getCurrentMapPoints_frame, H.
Qed.

End Queries.

(** ** More on the tracking entry points *)
Section TrackingMore.

Context `{G : Geometry}.

(** A sample is later than the frame when it is later than one of the two
    image stamps. *)
Lemma laterThan_frameTime (msgRGB msgD : ImageMsg) (m : ImuMsg) :
  laterThan (frameTime msgRGB msgD) m = true <->
  ~ ((stampToSec (imu_stamp m) <= stampToSec (img_stamp msgRGB))%Q /\
     (stampToSec (imu_stamp m) <= stampToSec (img_stamp msgD))%Q).
Proof.
  unfold laterThan, frameTime. rewrite <- std_min_glb, <- Qle_bool_iff.
  destruct (Qle_bool _ _); simpl; split; intros H; congruence.
Qed.

(** X7. A call of [trackRGBDi] that returns has called the engine exactly
    when both images were decoded and the buffer held a sample stamped later
    than the frame: with an empty buffer, or with inertial data lagging
    behind the images, the frame is dropped without a tracking step. *)
Theorem trackRGBDi_engine_gate (eng : EngineStep) (msgRGB msgD : ImageMsg)
        (s s' : State) (r : TrackResult) :
  trackRGBDi eng msgRGB msgD s = Returns (r, s') ->
  (is_Some (tr_call r) <->
   is_Some (toCvShare (img_data msgRGB)) /\
   is_Some (toCvShare (img_data msgD)) /\
   exists m, m ∈ imuBuf_ s /\ laterThan (frameTime msgRGB msgD) m = true).
Proof.
  intros H.
  destruct (trackRGBDi_buffer eng msgRGB msgD s s' r H)
    as (taken & Hbuf & _ & Hon & _ & Hcall & Hhd).
  rewrite Hcall. split.
  - intros (HRGB & HD & Hne). split_and!; auto.
    destruct (imuBuf_ s') as [|m rest] eqn:E; [congruence|].
    exists m. split.
    + rewrite Hbuf. apply elem_of_app. right. left.
    + apply laterThan_frameTime. eapply Hhd; eauto.
  - intros (HRGB & HD & m & Hin & Hlate). split_and!; auto.
    apply laterThan_frameTime in Hlate.
    rewrite Hbuf in Hin. apply elem_of_app in Hin as [Hin|Hin].
    + rewrite Forall_forall in Hon. destruct (Hlate (Hon m Hin)).
    + intros E. rewrite E in Hin. apply elem_of_nil in Hin. destruct Hin.
Qed.

Lemma afterTrack_not_tracking (eng : EngineStep) (flag : bool) (v : list ImuPoint)
      (call : TrackCall) (s : State) :
  eng_GetTrackingState eng <> 2%Z ->
  afterTrack eng flag v call s =
    Returns (mkTrackResult false (Some (eng_TrackRGBD eng)) v (Some call), s).
Proof.
  intros Hs. unfold afterTrack. destruct (eng_mergeDetected eng); [reflexivity|].
  destruct (Z.eqb_spec (eng_GetTrackingState eng) 2); [contradiction|reflexivity].
Qed.

(** X8. Whenever the engine reports a tracking state other than 2, both
    tracking calls return [false]: the reference poses are not recomputed,
    so the call cannot fail on the atlas. *)
Theorem not_tracking_returns_false (eng : EngineStep) (msgRGB msgD : ImageMsg)
        (s : State) :
  eng_GetTrackingState eng <> 2%Z ->
  (exists r s', trackRGBDi eng msgRGB msgD s = Returns (r, s') /\ tr_ret r = false) /\
  (exists r, trackRGBD eng msgRGB msgD s = Returns (r, s) /\ tr_ret r = false).
Proof.
  intros Hs. split.
  - destruct (toCvShare (img_data msgRGB)) as [cvRGB|] eqn:HRGB;
      [destruct (toCvShare (img_data msgD)) as [cvD|] eqn:HD|].
    + rewrite (trackRGBDi_decoded eng msgRGB msgD s cvRGB cvD HRGB HD).
      destruct (0 <? _)%nat.
      * rewrite afterTrack_not_tracking by exact Hs. eauto.
      * eauto.
    + unfold trackRGBDi. rewrite HRGB, HD. eauto.
    + unfold trackRGBDi. rewrite HRGB. eauto.
  - unfold trackRGBD.
    destruct (toCvShare (img_data msgRGB)); [|eauto].
    destruct (toCvShare (img_data msgD)); [|eauto].
    rewrite afterTrack_not_tracking by exact Hs. eauto.
Qed.

(** X9. A tracking call that returns [false], for whatever reason (an image
    that cannot be decoded, a dropped frame, a merge in progress, a tracking
    state other than 2), has left the tracked pose, the reference-pose table,
    the keyframe index and [hasTracked_] as they were. *)
Theorem failed_tracking_keeps_results (eng : EngineStep) (msgRGB msgD : ImageMsg)
        (s s' : State) (r : TrackResult) :
  trackRGBDi eng msgRGB msgD s = Returns (r, s') \/
  trackRGBD eng msgRGB msgD s = Returns (r, s') ->
  tr_ret r = false ->
  latestTrackedPose_ s' = latestTrackedPose_ s /\
  mapReferencePoses_ s' = mapReferencePoses_ s /\
  allKFs_ s' = allKFs_ s /\
  hasTracked_ s' = hasTracked_ s.
Proof.
  intros [H|H] Hret.
  - destruct (toCvShare (img_data msgRGB)) as [cvRGB|] eqn:HRGB;
      [destruct (toCvShare (img_data msgD)) as [cvD|] eqn:HD|].
    + rewrite (trackRGBDi_decoded eng msgRGB msgD s cvRGB cvD HRGB HD) in H.
      destruct (0 <? _)%nat.
      * apply afterTrack_inv in H as (_ & _ & _ & [(_ & -> & _)|(Ht & _)]);
          [auto|congruence].
      * injection H as <- <-. auto.
    + unfold trackRGBDi in H. rewrite HRGB, HD in H. injection H as <- <-. auto.
    + unfold trackRGBDi in H. rewrite HRGB in H. injection H as <- <-. auto.
  - unfold trackRGBD in H.
    destruct (toCvShare (img_data msgRGB)); [|injection H as <- <-; auto].
    destruct (toCvShare (img_data msgD)); [|injection H as <- <-; auto].
    apply afterTrack_inv in H as (_ & _ & _ & [(_ & -> & _)|(Ht & _)]);
      [auto|congruence].
Qed.

(** A tracking step that succeeds, in full. *)
Lemma afterTrack_true (eng : EngineStep) (flag : bool) (v : list ImuPoint)
      (call : TrackCall) (s s' : State) (r : TrackResult) :
  afterTrack eng flag v call s = Returns (r, s') ->
  tr_ret r = true ->
  eng_mergeDetected eng = false /\
  eng_GetTrackingState eng = 2%Z /\
  tr_Tcw r = Some (eng_TrackRGBD eng) /\
  exists a,
    orbAtlas_ s = Some a /\
    orbAtlas_ s' = Some a /\
    imuBuf_ s' = imuBuf_ s /\
    globalFrame_ s' = globalFrame_ s /\
    odomFrame_ s' = odomFrame_ s /\
    hasTracked_ s' = (if flag then true else hasTracked_ s) /\
    allKFs_ s' = makeKFIdPair (sortMaps (GetAllMaps (eng_mem eng a))) /\
    exists ref,
      mapReferencePoses_ s' !! GetCurrentMap (eng_mem eng a) = Some ref /\
      latestTrackedPose_ s' = compose ref (se3ToAffine (eng_TrackRGBD eng)).
Proof.
  intros H Hret.
  apply afterTrack_inv in H as (HTcw & _ & _ & [(Hf & _)|H]); [congruence|].
  destruct H as (_ & Hm & Hs & s1 & s2 & H1 & H2 & ->).
  split_and!; auto.
  apply calculateReferencePoses_inv in H1 as (a & tbl & Ha & _ & ->).
  apply correctTrackedPose_inv in H2 as (a' & Ha' & ->).
  simpl in Ha'. assert (a' = a) as -> by congruence.
  exists a. simpl.
  split_and!; try (destruct flag; reflexivity); auto.
  - destruct flag; simpl; exact Ha.
  - exists (refOrDefault tbl (GetCurrentMap (eng_mem eng a))). split.
    + destruct flag; simpl; apply refPoseAt_lookup.
    + destruct flag; simpl; rewrite refPoseAt_fst; reflexivity.
Qed.

(** X10. When [trackRGBDi] returns [true], the engine was called and
    reported state 2 with no merge in progress; the atlas handle is the
    engine's atlas, the keyframe index is the index of that atlas, the table
    holds a reference pose for the current map, the tracked pose is the pose
    returned by the engine projected through it, and [hasTracked_] is set. *)
Theorem trackRGBDi_true (eng : EngineStep) (msgRGB msgD : ImageMsg)
        (s s' : State) (r : TrackResult) :
  trackRGBDi eng msgRGB msgD s = Returns (r, s') ->
  tr_ret r = true ->
  let atlas := eng_mem eng (eng_GetAtlas eng) in
  eng_mergeDetected eng = false /\
  eng_GetTrackingState eng = 2%Z /\
  is_Some (tr_call r) /\
  tr_Tcw r = Some (eng_TrackRGBD eng) /\
  hasTracked_ s' = true /\
  orbAtlas_ s' = Some (eng_GetAtlas eng) /\
  allKFs_ s' = makeKFIdPair (sortMaps (GetAllMaps atlas)) /\
  exists ref,
    mapReferencePoses_ s' !! GetCurrentMap atlas = Some ref /\
    latestTrackedPose_ s' = compose ref (se3ToAffine (eng_TrackRGBD eng)).
Proof.
  intros H Hret atlas. subst atlas.
  destruct (toCvShare (img_data msgRGB)) as [cvRGB|] eqn:HRGB;
    [destruct (toCvShare (img_data msgD)) as [cvD|] eqn:HD|].
  - rewrite (trackRGBDi_decoded eng msgRGB msgD s cvRGB cvD HRGB HD) in H.
    destruct (0 <? _)%nat.
    + pose proof (afterTrack_inv _ _ _ _ _ _ _ H) as (_ & _ & Hcall & _).
      destruct (afterTrack_true _ _ _ _ _ _ _ H Hret)
        as (Hm & Hs & HTcw & a & Ha & Ha' & _ & _ & _ & Hflag & Hidx & ref & Href & Hp).
      simpl in Ha. injection Ha as <-.
      split_and!.
      * exact Hm.
      * exact Hs.
      * rewrite Hcall. eauto.
      * exact HTcw.
      * exact Hflag.
      * exact Ha'.
      * exact Hidx.
      * exists ref. auto.
    + injection H as <- <-. discriminate.
  - unfold trackRGBDi in H. rewrite HRGB, HD in H. injection H as <- <-. discriminate.
  - unfold trackRGBDi in H. rewrite HRGB in H. injection H as <- <-. discriminate.
Qed.

(** X11. When [trackRGBD] returns [true], the atlas handle was not null, and
    the call has left it and the inertial buffer as they were; the keyframe
    index is the index of the atlas behind that handle, the table holds a
    reference pose for its current map, and the tracked pose is the pose
    returned by the engine projected through it. *)
Theorem trackRGBD_true (eng : EngineStep) (msgRGB msgD : ImageMsg)
        (s s' : State) (r : TrackResult) :
  trackRGBD eng msgRGB msgD s = Returns (r, s') ->
  tr_ret r = true ->
  exists a,
    orbAtlas_ s = Some a /\
    orbAtlas_ s' = Some a /\
    imuBuf_ s' = imuBuf_ s /\
    allKFs_ s' = makeKFIdPair (sortMaps (GetAllMaps (eng_mem eng a))) /\
    exists ref,
      mapReferencePoses_ s' !! GetCurrentMap (eng_mem eng a) = Some ref /\
      latestTrackedPose_ s' = compose ref (se3ToAffine (eng_TrackRGBD eng)).
Proof.
  intros H Hret. unfold trackRGBD in H.
  destruct (toCvShare (img_data msgRGB)); [|injection H as <- <-; discriminate].
  destruct (toCvShare (img_data msgD)); [|injection H as <- <-; discriminate].
  destruct (afterTrack_true _ _ _ _ _ _ _ H Hret)
    as (_ & _ & _ & a & Ha & Ha' & Hbuf & _ & _ & _ & Hidx & Href).
  exists a. auto.
Qed.

(** X12. After a call of [trackRGBDi] that returned [true], the bridge
    returns and writes its output for every odometry message whose stamp is
    a time point (seconds not negative, within the fields of the message
    type): the transform is the engine's pose, projected through the
    reference pose of the current map and composed with the inverse of the
    odometry pose, between the frames the interface was constructed with.
    For a stamp with negative seconds it throws instead. *)
Theorem getMapToOdomTF_after_tracking (eng : EngineStep) (msgRGB msgD : ImageMsg)
        (s s' : State) (r : TrackResult) (msgOdom : Odometry)
        (tf : TransformStamped) :
  trackRGBDi eng msgRGB msgD s = Returns (r, s') ->
  tr_ret r = true ->
  stamp_wf (odom_stamp msgOdom) ->
  ((sec (odom_stamp msgOdom) < 0)%Z ->
   getMapToOdomTF msgOdom tf s' = Raised RuntimeError) /\
  ((0 <= sec (odom_stamp msgOdom))%Z ->
   exists out ref,
     getMapToOdomTF msgOdom tf s' = Normal out /\
     mapReferencePoses_ s' !! GetCurrentMap (eng_mem eng (eng_GetAtlas eng)) = Some ref /\
     mkPoseMsg (tf_translation out) (tf_rotation out) =
       toMsg (compose (compose ref (se3ToAffine (eng_TrackRGBD eng)))
                      (inverse (mkAffine (odom_position msgOdom)
                                         (odom_orientation msgOdom)))) /\
     tf_frame_id out = globalFrame_ s /\
     tf_child_frame_id out = odomFrame_ s).
Proof.
  intros H Hret [Hsec Hns].
  destruct (toCvShare (img_data msgRGB)) as [cvRGB|] eqn:HRGB;
    [destruct (toCvShare (img_data msgD)) as [cvD|] eqn:HD|].
  - rewrite (trackRGBDi_decoded eng msgRGB msgD s cvRGB cvD HRGB HD) in H.
    destruct (0 <? _)%nat.
    + destruct (afterTrack_true _ _ _ _ _ _ _ H Hret)
        as (_ & _ & _ & a & Ha & _ & _ & Hgf & Hof & Hflag & _ & ref & Href & Hp).
      simpl in Ha. injection Ha as <-. simpl in Hgf, Hof.
      split.
      * intros Hneg. unfold getMapToOdomTF, rclcppTimeFromMsg. rewrite Hflag.
        destruct (Z.ltb_spec (sec (odom_stamp msgOdom)) 0); [reflexivity|lia].
      * intros Hpos.
        destruct (getMapToOdomTF_written msgOdom tf s' Hflag Hpos Hns (proj2 Hsec))
          as (stamp & Hout & _).
        rewrite Hp, Hgf, Hof in Hout.
        eexists. exists ref. split; [exact Hout|]. simpl.
        split_and!; auto.
        destruct (toMsg _) as [pos q]. reflexivity.
    + injection H as <- <-. discriminate.
  - unfold trackRGBDi in H. rewrite HRGB, HD in H. injection H as <- <-. discriminate.
  - unfold trackRGBDi in H. rewrite HRGB in H. injection H as <- <-. discriminate.
Qed.

End TrackingMore.

(** ** The drain on a buffer in stamp order *)
Section SortedBuffer.

Context `{G : Geometry}.

Lemma filter_none {A} (f : A -> bool) (l : list A) :
  Forall (fun x => f x = false) l -> List.filter f l = [].
Proof.
  induction 1 as [|x l Hx _ IH]; simpl; [reflexivity|].
  rewrite Hx. exact IH.
Qed.

Lemma filter_all {A} (f : A -> bool) (l : list A) :
  Forall (fun x => f x = true) l -> List.filter f l = l.
Proof.
  induction 1 as [|x l Hx _ IH]; simpl; [reflexivity|].
  rewrite Hx, IH. reflexivity.
Qed.

Lemma drainImu_sorted (t : Q) (imuBuf : list ImuMsg) (vImuMeas : list ImuPoint) :
  StronglySorted byStamp imuBuf ->
  drainImu t imuBuf vImuMeas =
    (vImuMeas ++ map imuPoint (List.filter (fun m => negb (laterThan t m)) imuBuf),
     List.filter (laterThan t) imuBuf).
Proof.
  intros Hs. revert vImuMeas.
  induction Hs as [|front rest Hs IH Hall]; intros vImuMeas; simpl.
  - rewrite app_nil_r. reflexivity.
  - replace (laterThan t front)
      with (negb (Qle_bool (stampToSec (imu_stamp front)) t)) by reflexivity.
    destruct (Qle_bool (stampToSec (imu_stamp front)) t) eqn:E; simpl.
    + rewrite IH, <- app_assoc. reflexivity.
    + assert (Hlate : Forall (fun m => laterThan t m = true) rest).
      { eapply Forall_impl; [exact Hall|]. intros m Hm. unfold laterThan.
        destruct (Qle_bool (stampToSec (imu_stamp m)) t) eqn:E'; [|reflexivity].
        apply Qle_bool_iff in E'.
        assert (Hf : Qle_bool (stampToSec (imu_stamp front)) t = true).
        { apply Qle_bool_iff. eapply Qle_trans; [exact Hm|exact E']. }
        congruence. }
      rewrite (filter_all _ _ Hlate), filter_none.
      * rewrite app_nil_r. reflexivity.
      * eapply Forall_impl; [exact Hlate|]. simpl. intros m ->. reflexivity.
Qed.

Lemma StronglySorted_suffix {A} (R : A -> A -> Prop) (l1 l2 : list A) :
  StronglySorted R (l1 ++ l2) -> StronglySorted R l2.
Proof.
  induction l1 as [|x l1 IH]; simpl; [auto|].
  intros H. apply StronglySorted_inv in H as [H _]. auto.
Qed.

(** What the drain of a decoded call leaves in the result and the state. *)
Lemma trackRGBDi_drain (eng : EngineStep) (msgRGB msgD : ImageMsg)
      (s s' : State) (r : TrackResult) :
  is_Some (toCvShare (img_data msgRGB)) ->
  is_Some (toCvShare (img_data msgD)) ->
  trackRGBDi eng msgRGB msgD s = Returns (r, s') ->
  tr_vImuMeas r = (drainImu (frameTime msgRGB msgD) (imuBuf_ s) []).1 /\
  imuBuf_ s' = (drainImu (frameTime msgRGB msgD) (imuBuf_ s) []).2.
Proof.
  intros [cvRGB HRGB] [cvD HD].
  rewrite (trackRGBDi_decoded eng msgRGB msgD s cvRGB cvD HRGB HD).
  fold (frameTime msgRGB msgD).
  destruct (0 <? _)%nat.
  - intros H. apply afterTrack_inv in H as (_ & Hv & _ & Hs). split; [exact Hv|].
    destruct Hs as [(_ & -> & _)|(_ & _ & _ & s1 & s2 & H1 & H2 & ->)];
      [reflexivity|].
    apply calculateReferencePoses_inv in H1 as (a & tbl & _ & _ & ->).
    apply correctTrackedPose_inv in H2 as (a' & _ & ->). reflexivity.
  - intros [= <- <-]. split; reflexivity.
Qed.

(** X13. When the buffer is in stamp order (the inertial messages arrived in
    the order of their stamps), a call that decodes both images removes
    every sample stamped no later than the frame, and only those: the batch
    is all of them, in order, and what stays is exactly the samples stamped
    later than the frame, still in stamp order. *)
Theorem trackRGBDi_sorted_buffer (eng : EngineStep) (msgRGB msgD : ImageMsg)
        (s s' : State) (r : TrackResult) :
  StronglySorted byStamp (imuBuf_ s) ->
  is_Some (toCvShare (img_data msgRGB)) ->
  is_Some (toCvShare (img_data msgD)) ->
  trackRGBDi eng msgRGB msgD s = Returns (r, s') ->
  let t := frameTime msgRGB msgD in
  tr_vImuMeas r =
    map imuPoint (List.filter (fun m => negb (laterThan t m)) (imuBuf_ s)) /\
  imuBuf_ s' = List.filter (laterThan t) (imuBuf_ s) /\
  StronglySorted byStamp (imuBuf_ s').
Proof.
  intros Hsorted HRGB HD H t.
  destruct (trackRGBDi_drain eng msgRGB msgD s s' r HRGB HD H) as (Hv & Hbuf).
  fold t in Hv, Hbuf. rewrite (drainImu_sorted t _ [] Hsorted) in Hv, Hbuf.
  simpl in Hv, Hbuf. split_and!; [exact Hv|exact Hbuf|].
  destruct (trackRGBDi_buffer eng msgRGB msgD s s' r H) as (taken & Happ & _).
  rewrite Happ in Hsorted. eapply StronglySorted_suffix, Hsorted.
Qed.

End SortedBuffer.

(** ** When the resolution pass returns *)
Section ResolutionMore.

Context `{G : Geometry}.

Lemma resolveLoop_total (s : State) (allKFs : OMap.t KeyFrame)
      (mapsList : list Map) (tbl : gmap MapPtr Affine) :
  (forall m, m ∈ mapsList -> GetInitKFid m <> 0 ->
             is_Some (OMap.find (GetInitKFid m - 1) allKFs)) ->
  exists tbl',
    resolveLoop s allKFs mapsList tbl = Returns tbl' /\
    (forall k, is_Some (tbl !! k) -> is_Some (tbl' !! k)) /\
    (forall m, m ∈ mapsList -> is_Some (tbl' !! mapPtr m)).
Proof.
  revert tbl.
  induction mapsList as [|m rest IH]; intros tbl Hparent.
  - exists tbl. split_and!; auto. intros m Hin. apply elem_of_nil in Hin. destruct Hin.
  - assert (Hstep : exists tbl1,
               resolveMap s allKFs tbl m = Returns tbl1 /\
               (forall k, is_Some (tbl !! k) -> is_Some (tbl1 !! k)) /\
               is_Some (tbl1 !! mapPtr m)).
    { unfold resolveMap. destruct (N.eqb_spec (GetInitKFid m) 0) as [H0|Hnz].
      - eexists. split_and!; [reflexivity| |].
        + intros k Hk. apply lookup_insert_is_Some'. auto.
        + rewrite lookup_insert_eq. eauto.
      - destruct (Hparent m ltac:(left) Hnz) as [kf ->].
        pose proof (defaults_added_refPoseAt (GetMap kf) tbl) as [Hsub _].
        destruct (refPoseAt (GetMap kf) tbl) as [ref tbl1]. simpl in Hsub.
        eexists. split_and!; [reflexivity| |].
        + intros k [v Hk]. apply lookup_insert_is_Some'. right. eauto.
        + rewrite lookup_insert_eq. eauto. }
    destruct Hstep as (tbl1 & Hmap & Hkeep & Hm).
    destruct (IH tbl1) as (tbl' & Hloop & Hkeep' & Hall).
    { intros m' Hin. apply Hparent. right. exact Hin. }
    exists tbl'. simpl. rewrite Hmap. simpl. split_and!; auto.
    intros m' Hin. apply elem_of_cons in Hin as [->|Hin]; auto.
Qed.

(** X14. The resolution pass returns exactly when the atlas handle is not
    null and the parent keyframe (identifier [GetInitKFid - 1]) of every map
    that does not start at keyframe 0 is in the keyframe index; otherwise it
    dereferences a null pointer. *)
Theorem calculateReferencePoses_returns_iff (mem : AtlasPtr -> Atlas) (s : State) :
  (exists s', calculateReferencePoses mem s = Returns s') <->
  (exists a,
      orbAtlas_ s = Some a /\
      forall m, m ∈ GetAllMaps (mem a) -> GetInitKFid m <> 0 ->
        is_Some (OMap.find (GetInitKFid m - 1)
                           (makeKFIdPair (sortMaps (GetAllMaps (mem a)))))).
Proof.
  split.
  - intros [s' H].
    pose proof H as H'.
    apply calculateReferencePoses_inv in H' as (a & tbl & Ha & Hloop & _).
    exists a. split; [exact Ha|].
    intros m Hin Hnz.
    destruct (OMap.find _ _) as [kf|] eqn:E; [eauto|].
    rewrite (resolveLoop_missing_parent s _ _ ∅ m) in Hloop; auto; [discriminate|].
    rewrite sortMaps_perm. exact Hin.
  - intros (a & Ha & Hparent).
    destruct (resolveLoop_total s
                (makeKFIdPair (sortMaps (GetAllMaps (mem a))))
                (sortMaps (GetAllMaps (mem a))) ∅) as (tbl & Hloop & _).
    { intros m Hin. apply Hparent. rewrite <- (sortMaps_perm (GetAllMaps (mem a))).
      exact Hin. }
    eexists. unfold calculateReferencePoses. rewrite Ha, Hloop. reflexivity.
Qed.

(** X15. When the resolution pass returns, it has written the table and the
    index and nothing else: the index is the index of the atlas, and the
    table holds a reference pose for every map of the atlas, whoever owns the
    parent keyframes. *)
Theorem calculateReferencePoses_covers (mem : AtlasPtr -> Atlas) (s s' : State) :
  calculateReferencePoses mem s = Returns s' ->
  exists a,
    orbAtlas_ s = Some a /\
    s' = set_mapReferencePoses (mapReferencePoses_ s')
           (set_allKFs (makeKFIdPair (sortMaps (GetAllMaps (mem a)))) s) /\
    forall m, m ∈ GetAllMaps (mem a) -> is_Some (mapReferencePoses_ s' !! mapPtr m).
Proof.
  intros H.
  pose proof H as H'.
  apply calculateReferencePoses_inv in H' as (a & tbl & Ha & Hloop & ->).
  exists a. split_and!; [exact Ha|reflexivity|].
  simpl. intros m Hin.
  assert (Hret : exists s', calculateReferencePoses mem s = Returns s') by eauto.
  destruct (resolveLoop_total s
              (makeKFIdPair (sortMaps (GetAllMaps (mem a))))
              (sortMaps (GetAllMaps (mem a))) ∅) as (tbl' & Hloop' & _ & Hall).
  { intros m' Hin' Hnz.
    destruct (OMap.find _ _) as [kf|] eqn:E; [eauto|].
    rewrite (resolveLoop_missing_parent s _ _ ∅ m') in Hloop; auto. discriminate. }
  rewrite Hloop in Hloop'. injection Hloop' as <-.
  apply Hall. rewrite sortMaps_perm. exact Hin.
Qed.

End ResolutionMore.

(** ** The index after a tracking step *)
Section IndexAfterTracking.

Context `{G : Geometry}.

Lemma makeKFIdPair_is_Some (mapsList : list Map) (id : N) :
  is_Some (OMap.find id (makeKFIdPair mapsList)) <->
  exists m kf, m ∈ mapsList /\ kf ∈ GetAllKeyFrames m /\ mnId kf = id.
Proof.
  rewrite makeKFIdPair_flat, find_fold_insert. simpl.
  set (l := filter (fun kf => mnId kf = id) (flat_map GetAllKeyFrames mapsList)).
  assert (Hl : forall kf, kf ∈ l <->
             mnId kf = id /\ exists m, m ∈ mapsList /\ kf ∈ GetAllKeyFrames m).
  { intros kf. unfold l. rewrite list_elem_of_filter, list_elem_of_In, in_flat_map.
    setoid_rewrite <- list_elem_of_In. reflexivity. }
  destruct (last l) as [kf|] eqn:E.
  - split; [intros _|eauto].
    apply last_Some in E as [l' E].
    destruct (proj1 (Hl kf)) as (Hid & m & Hm & Hkf).
    { rewrite E. apply elem_of_app. right. left. }
    exists m, kf. auto.
  - split; [intros [x [=]]|].
    intros (m & kf & Hm & Hkf & Hid).
    apply last_None in E.
    assert (Hin : kf ∈ l) by (apply Hl; eauto).
    rewrite E in Hin. apply elem_of_nil in Hin. destruct Hin.
Qed.

(** X16. After a call of [trackRGBDi] that returned [true], the keyframe
    index holds an identifier exactly when a keyframe of some map of the
    engine's atlas carries it: every keyframe of the atlas can be requested,
    and nothing of an earlier atlas is left. *)
Theorem trackRGBDi_index_complete (eng : EngineStep) (msgRGB msgD : ImageMsg)
        (s s' : State) (r : TrackResult) (id : N) :
  trackRGBDi eng msgRGB msgD s = Returns (r, s') ->
  tr_ret r = true ->
  (is_Some (OMap.find id (allKFs_ s')) <->
   exists m kf,
     m ∈ GetAllMaps (eng_mem eng (eng_GetAtlas eng)) /\
     kf ∈ GetAllKeyFrames m /\
     mnId kf = id).
Proof.
  intros H Hret.
  assert (Hidx : allKFs_ s' =
                 makeKFIdPair (sortMaps (GetAllMaps (eng_mem eng (eng_GetAtlas eng))))).
  { destruct (toCvShare (img_data msgRGB)) as [cvRGB|] eqn:HRGB;
      [destruct (toCvShare (img_data msgD)) as [cvD|] eqn:HD|].
    - rewrite (trackRGBDi_decoded eng msgRGB msgD s cvRGB cvD HRGB HD) in H.
      destruct (0 <? _)%nat.
      + destruct (afterTrack_true _ _ _ _ _ _ _ H Hret)
          as (_ & _ & _ & a & Ha & _ & _ & _ & _ & _ & Hidx & _).
        simpl in Ha. injection Ha as <-. exact Hidx.
      + injection H as <- <-. discriminate.
    - unfold trackRGBDi in H. rewrite HRGB, HD in H.
      injection H as <- <-. discriminate.
    - unfold trackRGBDi in H. rewrite HRGB in H.
      injection H as <- <-. discriminate. }
  rewrite Hidx, makeKFIdPair_is_Some.
  split; intros (m & kf & Hm & Hkf & Hid); exists m, kf; (split_and!; auto).
  - rewrite <- (sortMaps_perm (GetAllMaps _)). exact Hm.
  - rewrite (sortMaps_perm (GetAllMaps _)). exact Hm.
Qed.

End IndexAfterTracking.

(** * The further properties on concrete inputs *)
Module MoreRuns.

Import Demo DemoMore.
#[local] Existing Instance translations.

Lemma tracked_atlas : orbAtlas_ tracked = Some 1%positive.
Proof. reflexivity. Qed.

Lemma getOptimizedPoseGraph_current_witness :
  exists graph' s',
    getOptimizedPoseGraph (fun _ => atlasAB) (mkMapGraph [] []) true tracked
      = Returns (graph', s') /\
    poses_id graph' = [5; 6].
Proof.
  destruct (getOptimizedPoseGraph_current
              (fun _ => atlasAB) (mkMapGraph [] []) tracked 1%positive tracked_atlas)
    as (graph' & s' & Hg & _ & Hid).
  exists graph', s'. split; [exact Hg|exact Hid].
Defined.

Lemma mapDataToMsg_nodes_witness :
  exists msg' s',
    mapDataToMsg (fun _ => atlasAB) emptyMapData false true [4; 99; 5]%Z tracked
      = Returns (msg', s') /\
    md_nodes msg' =
      [mkKeyFrameMsg 4 [mkVec3 14 21 1]%Z; mkKeyFrameMsg 5 [mkVec3 14 21 1]%Z].
Proof.
  destruct (mapDataToMsg (fun _ => atlasAB) emptyMapData false true [4; 99; 5]%Z
                         tracked) as [[msg' s']|] eqn:E; [|discriminate E].
  destruct (mapDataToMsg_nodes _ _ _ _ _ _ _ _ E) as (_ & _ & Hn).
  exists msg', s'. split; [reflexivity|]. rewrite Hn. reflexivity.
Defined.

Lemma getCurrentMapPoints_cloud_witness :
  exists s',
    getCurrentMapPoints (fun _ => atlasAB) tracked
      = Returns ([mkVec3 14 21 1; mkVec3 15 21 1]%Z, s').
Proof.
  destruct (getCurrentMapPoints_cloud (fun _ => atlasAB) tracked 1%positive
                                      tracked_atlas) as (s' & Hc).
  - intros KF Hin _. simpl in Hin.
    apply elem_of_cons in Hin as [->|Hin];
      [|apply list_elem_of_singleton in Hin as ->].
    + exists (kf 5 0 2). reflexivity.
    + exists (kf 6 1 2). reflexivity.
  - exists s'. exact Hc.
Defined.

Lemma getCurrentMapPoints_unindexed_witness :
  getCurrentMapPoints (fun _ => atlasNewKF) tracked = NullDeref.
Proof.
  apply (getCurrentMapPoints_unindexed (fun _ => atlasNewKF) tracked 1%positive
                                       (kf 7 2 2) tracked_atlas).
  - simpl. right. left.
  - discriminate.
  - reflexivity.
Defined.

Lemma queries_keep_state_witness :
  exists graph' s',
    getOptimizedPoseGraph (fun _ => atlasAB) (mkMapGraph [] []) false tracked
      = Returns (graph', s') /\
    latestTrackedPose_ s' = latestTrackedPose_ tracked /\
    defaults_added (mapReferencePoses_ tracked) (mapReferencePoses_ s').
Proof.
  destruct (getOptimizedPoseGraph (fun _ => atlasAB) (mkMapGraph [] []) false tracked)
    as [[graph' s']|] eqn:E; [|discriminate E].
  destruct (queries_keep_state tracked s') as (Hs & Ht).
  - left. exists (fun _ => atlasAB), (mkMapGraph [] []), false, graph'. exact E.
  - exists graph', s'. split_and!; [reflexivity| |exact Ht].
    rewrite Hs. reflexivity.
Defined.

Lemma trackRGBDi_engine_gate_witness :
  exists r s',
    trackRGBDi (tracking atlasAB) (imageAt 1600 true) (imageAt 1600 true) buffered
      = Returns (r, s') /\
    is_Some (tr_call r).
Proof.
  destruct (trackRGBDi (tracking atlasAB) (imageAt 1600 true) (imageAt 1600 true)
                       buffered) as [[r s']|] eqn:E; [|discriminate E].
  exists r, s'. split; [reflexivity|].
  apply (trackRGBDi_engine_gate _ _ _ _ _ _ E). split_and!.
  - exists tt. reflexivity.
  - exists tt. reflexivity.
  - exists (imuAt 2000). split; [|reflexivity].
    simpl. do 3 right. left.
Defined.

Lemma not_tracking_returns_false_witness :
  exists r s',
    trackRGBDi (lost atlasCulled) (imageAt 1600 true) (imageAt 1600 true) buffered
      = Returns (r, s') /\
    tr_ret r = false.
Proof.
  refine (proj1 (not_tracking_returns_false
                   (lost atlasCulled) (imageAt 1600 true) (imageAt 1600 true)
                   buffered _)).
  discriminate.
Defined.

Lemma failed_tracking_keeps_results_witness :
  exists r s',
    trackRGBDi (lost atlasAB) (imageAt 1600 true) (imageAt 1600 true) buffered
      = Returns (r, s') /\
    mapReferencePoses_ s' = mapReferencePoses_ buffered /\
    hasTracked_ s' = hasTracked_ buffered.
Proof.
  destruct (trackRGBDi (lost atlasAB) (imageAt 1600 true) (imageAt 1600 true)
                       buffered) as [[r s']|] eqn:E; [|discriminate E].
  destruct (failed_tracking_keeps_results
              (lost atlasAB) (imageAt 1600 true) (imageAt 1600 true) buffered s' r
              (or_introl E)) as (_ & Ht & _ & Hf).
  - injection E as <- _. reflexivity.
  - exists r, s'. auto.
Defined.

Lemma trackRGBDi_true_witness :
  exists r s' ref,
    trackRGBDi (tracking atlasAB) (imageAt 1600 true) (imageAt 1600 true) buffered
      = Returns (r, s') /\
    mapReferencePoses_ s' !! 2%positive = Some ref /\
    latestTrackedPose_ s' = vadd ref (mkVec3 1 0 0)%Z /\
    hasTracked_ s' = true.
Proof.
  destruct (trackRGBDi (tracking atlasAB) (imageAt 1600 true) (imageAt 1600 true)
                       buffered) as [[r s']|] eqn:E; [|discriminate E].
  destruct (trackRGBDi_true _ _ _ _ _ _ E)
    as (_ & _ & _ & _ & Hf & _ & _ & ref & Href & Hp).
  - injection E as <- _. reflexivity.
  - exists r, s', ref. auto.
Defined.

Lemma trackRGBD_true_witness :
  exists r s' ref,
    trackRGBD (tracking atlasAB) (imageAt 1600 true) (imageAt 1600 true) primed
      = Returns (r, s') /\
    orbAtlas_ s' = orbAtlas_ primed /\
    mapReferencePoses_ s' !! 2%positive = Some ref /\
    latestTrackedPose_ s' = vadd ref (mkVec3 1 0 0)%Z.
Proof.
  destruct (trackRGBD (tracking atlasAB) (imageAt 1600 true) (imageAt 1600 true)
                      primed) as [[r s']|] eqn:E; [|discriminate E].
  destruct (trackRGBD_true _ _ _ _ _ _ E)
    as (a & Ha & Ha' & _ & _ & ref & Href & Hp).
  - injection E as <- _. reflexivity.
  - exists r, s', ref. split_and!; [reflexivity|congruence|exact Href|exact Hp].
Defined.

Lemma getMapToOdomTF_after_tracking_witness :
  exists r s' out,
    trackRGBDi (tracking atlasAB) (imageAt 1600 true) (imageAt 1600 true) buffered
      = Returns (r, s') /\
    getMapToOdomTF (odomAt 100700) staleTf s' = Normal out /\
    tf_frame_id out = "map" /\
    tf_child_frame_id out = "odom".
Proof.
  destruct (trackRGBDi (tracking atlasAB) (imageAt 1600 true) (imageAt 1600 true)
                       buffered) as [[r s']|] eqn:E; [|discriminate E].
  destruct (getMapToOdomTF_after_tracking _ _ _ _ _ _ (odomAt 100700) staleTf E)
    as (_ & Hpos).
  - injection E as <- _. reflexivity.
  - repeat split; vm_compute; congruence.
  - destruct Hpos as (out & ref & Hout & _ & _ & Hf & Hc); [vm_compute; congruence|].
    exists r, s', out. auto.
Defined.

Lemma buffered_sorted : StronglySorted byStamp (imuBuf_ buffered).
Proof.
  simpl. repeat constructor; cbv; discriminate.
Qed.

Lemma trackRGBDi_sorted_buffer_witness :
  exists r s',
    trackRGBDi (tracking atlasAB) (imageAt 1600 true) (imageAt 1600 true) buffered
      = Returns (r, s') /\
    tr_vImuMeas r = map imuPoint [imuAt 1000; imuAt 1200; imuAt 1500] /\
    imuBuf_ s' = [imuAt 2000].
Proof.
  destruct (trackRGBDi (tracking atlasAB) (imageAt 1600 true) (imageAt 1600 true)
                       buffered) as [[r s']|] eqn:E; [|discriminate E].
  destruct (trackRGBDi_sorted_buffer
              (tracking atlasAB) (imageAt 1600 true) (imageAt 1600 true) buffered s' r
              buffered_sorted (mk_is_Some (Some tt) tt eq_refl)
              (mk_is_Some (Some tt) tt eq_refl) E) as (Hv & Hb & _).
  exists r, s'. split_and!; [reflexivity|exact Hv|exact Hb].
Defined.

Lemma calculateReferencePoses_covers_witness :
  exists s',
    calculateReferencePoses (fun _ => atlasMerged) primed = Returns s' /\
    is_Some (mapReferencePoses_ s' !! 2%positive).
Proof.
  destruct (calculateReferencePoses (fun _ => atlasMerged) primed)
    as [s'|] eqn:E; [|discriminate E].
  destruct (calculateReferencePoses_covers _ _ _ E) as (a & Ha & _ & Hall).
  exists s'. split; [reflexivity|].
  injection Ha as <-. apply (Hall mapMerged). simpl. left.
Defined.

Lemma trackRGBDi_index_complete_witness :
  exists r s',
    trackRGBDi (tracking atlasAB) (imageAt 1600 true) (imageAt 1600 true) buffered
      = Returns (r, s') /\
    is_Some (OMap.find 4 (allKFs_ s')).
Proof.
  destruct (trackRGBDi (tracking atlasAB) (imageAt 1600 true) (imageAt 1600 true)
                       buffered) as [[r s']|] eqn:E; [|discriminate E].
  exists r, s'. split; [reflexivity|].
  apply (trackRGBDi_index_complete _ _ _ _ _ _ 4 E).
  - injection E as <- _. reflexivity.
  - exists mapA, (kf 4 4 1). split_and!.
    + simpl. right. left.
    + simpl. do 4 right. left.
    + reflexivity.
Defined.

End MoreRuns.
